(** * Text loading, batch scheduling and batch materialisation

    A shallow embedding of [text_loader.py]: the sample loader
    ([TextLoader]), the two schedule generators ([bucket_schedule],
    [warmup_schedule]) and the batch builder ([TextBatchGenerator]),
    followed by the properties established about them.

    Conventions of the embedding:
    - a Python [str] is a list of characters ([text]); characters are
      8-bit code points, which is enough for lengths, slicing, the
      whitespace class and the comparison with the space character;
    - Python integers are [Z], lengths and indices produced by
      [enumerate] and [len] are [nat];
    - a raised exception is the [Raise] branch of [result];
    - a generator is a state machine: one call of [next] is one
      application of its step function, and the global numpy random
      state is threaded through explicitly;
    - a numpy array is its shape and its row-major buffer; entries are
      integers (the arrays built here only ever hold integers). *)

From Stdlib Require Import ZArith Lia Ascii.
From stdpp Require Import base option list sorting strings gmap.

(** ** Exceptions *)

Inductive exn :=
  | ZeroDivisionError | IndexError | ValueError | IOError | AttributeError.

Inductive result (A : Type) :=
  | Ok (a : A)
  | Raise (e : exn).
Arguments Ok {A} a.
Arguments Raise {A} e.

#[global] Instance result_ret : MRet result := λ A a, Ok a.
#[global] Instance result_bind : MBind result := λ A B f r,
  match r with Ok a => f a | Raise e => Raise e end.

(** ** Python primitives on sequences *)

Abbreviation text := (list ascii).
Abbreviation sample := (text * text)%type.

Definition txt (s : string) : text := String.list_ascii_of_string s.

(** [l[:k]] for an integer [k]; a negative [k] counts from the end. *)
Definition slice_to {A} (l : list A) (k : Z) : list A :=
  if decide (0 ≤ k)%Z then take (Z.to_nat k) l
  else take (length l - Z.to_nat (- k)) l.

(** [str.isspace] on the code points below 256. *)
Definition isspace (c : ascii) : bool :=
  let n := nat_of_ascii c in
  ((9 <=? n) && (n <=? 13)) || ((28 <=? n) && (n <=? 32))
  || (n =? 133) || (n =? 160).

Fixpoint lstrip (s : text) : text :=
  match s with
  | c :: s' => if isspace c then lstrip s' else s
  | [] => []
  end.

Definition rstrip (s : text) : text := reverse (lstrip (reverse s)).

Definition strip (s : text) : text := rstrip (lstrip s).

Definition newline : ascii := ascii_of_nat 10.

(** [s.split(sep)] for a one-character separator. *)
Fixpoint split (sep : ascii) (s : text) : list text :=
  match s with
  | [] => [[]]
  | c :: s' =>
      if decide (c = sep) then [] :: split sep s'
      else match split sep s' with
           | l :: ls => (c :: l) :: ls
           | [] => [[c]]
           end
  end.

(** [max(ns)] of a list of lengths; [ValueError] on the empty list. *)
Definition py_max (ns : list nat) : result nat :=
  match ns with
  | [] => Raise ValueError
  | _ => Ok (max_list ns)
  end.

(** A number that is an integer or [float('inf')]. *)
Inductive pynum := Int (z : Z) | Inf.

Definition pynum_sub1 (m : pynum) : pynum :=
  match m with Int z => Int (z - 1) | Inf => Inf end.

Definition len_le (n : nat) (m : pynum) : Prop :=
  match m with Int z => (Z.of_nat n ≤ z)%Z | Inf => True end.

#[global] Instance len_le_dec n m : Decision (len_le n m).
Proof. destruct m; simpl; apply _. Defined.

(** The iteration order of a Python [set] is unspecified.  [HashOrder]
    is any way of listing the distinct elements of a list. *)
Class HashOrder := {
  set_to_list : list sample → list sample;
  set_to_list_NoDup l : NoDup (set_to_list l);
  set_to_list_elem l s : s ∈ set_to_list l ↔ s ∈ l
}.

(** One such order: first occurrences, in order of appearance. *)
Definition insertion_order : HashOrder :=
  {| set_to_list := remove_dups;
     set_to_list_NoDup := NoDup_remove_dups;
     set_to_list_elem := elem_of_remove_dups |}.

(** ** The sample loader *)

Section loader.
Context `{HashOrder}.

Definition _filter_samples (samples : list sample) (max_length : pynum)
  : list sample :=
  let samples :=
    filter (λ s, 1 < length s.1 ∧ len_le (length s.1) (pynum_sub1 max_length))
           samples in
  let samples :=
    filter (λ s, 1 < length s.2 ∧ len_le (length s.2) (pynum_sub1 max_length))
           samples in
  set_to_list samples.

Definition _truncate_samples (samples : list sample) (limit : Z)
  : list sample :=
  (λ s, (slice_to s.1 limit, slice_to s.2 limit)) <$> samples.

(** The files, as the decoded text [f.read()] returns for each path. *)
Definition open_read (fs : gmap string text) (path : string) : result text :=
  match fs !! path with
  | Some content => Ok content
  | None => Raise IOError
  end.

(** The loop of [_load_data] over the zipped paths. *)
Fixpoint load_streams (fs : gmap string text) (paths : list (string * string))
    (data_X data_t : list text) : result (list text * list text) :=
  match paths with
  | [] => Ok (data_X, data_t)
  | (path_X, path_t) :: paths =>
      content_X ← open_read fs path_X;
      content_t ← open_read fs path_t;
      load_streams fs paths (data_X ++ split newline content_X)
                   (data_t ++ split newline content_t)
  end.

Definition _load_data (fs : gmap string text) (paths_X paths_t : list string)
  : result (list sample) :=
  '(data_X, data_t) ← load_streams fs (zip paths_X paths_t) [] [];
  Ok (zip data_X data_t).

(** [samples_after/samples_before*100]: only whether it raises matters. *)
Definition percentage (samples_after samples_before : nat) : result unit :=
  if decide (samples_before = 0) then Raise ZeroDivisionError else Ok ().

Definition _preprocess_data (samples : list sample) (seq_len : Z)
  : result (list sample) :=
  let samples := (λ s, (strip s.1, strip s.2)) <$> samples in
  let samples_before := length samples in
  let samples := _filter_samples samples Inf in
  let samples := _truncate_samples samples (seq_len - 1) in
  let samples_after := length samples in
  _ ← percentage samples_after samples_before;
  Ok samples.

Record TextLoader := {
  loader_paths_X : list string;
  loader_paths_t : list string;
  loader_seq_len : Z;
  loader_samples : list sample
}.

(** [TextLoader.__init__] *)
Definition TextLoader_init (fs : gmap string text)
    (paths_X paths_t : list string) (seq_len : Z) : result TextLoader :=
  loaded ← _load_data fs paths_X paths_t;
  samples ← _preprocess_data loaded seq_len;
  Ok {| loader_paths_X := paths_X; loader_paths_t := paths_t;
        loader_seq_len := seq_len; loader_samples := samples |}.
End loader.

(** ** Randomness

    [np.random.shuffle] and [np.random.permutation] draw from the global
    numpy random state.  A [RandomSource] is any state from which
    permutations of [0 .. n-1] can be drawn. *)

Class RandomSource := {
  rng : Type;
  random_permutation : rng → nat → list nat * rng;
  random_permutation_perm g n : (random_permutation g n).1 ≡ₚ seq 0 n
}.

(** Rearrange [xs] along a list of positions. *)
Definition permute {A} (positions : list nat) (xs : list A) : list A :=
  omap (λ i, xs !! i) positions.

Section random.
Context `{RandomSource}.

(** [np.random.shuffle(xs)]: the rows of [xs] in a random order. *)
Definition np_random_shuffle {A} (xs : list A) (g : rng) : list A * rng :=
  let '(positions, g) := random_permutation g (length xs) in
  (permute positions xs, g).

(** [np.random.permutation(xs)] for a sequence [xs]. *)
Definition np_random_permutation {A} (xs : list A) (g : rng) : list A * rng :=
  np_random_shuffle xs g.
End random.

(** A source that always reverses, and one that never moves anything. *)
Definition reversing_source : RandomSource :=
  {| rng := unit;
     random_permutation := λ g n, (reverse (seq 0 n), g);
     random_permutation_perm := λ g n, reverse_Permutation (seq 0 n) |}.

Definition identity_source : RandomSource :=
  {| rng := unit;
     random_permutation := λ g n, (seq 0 n, g);
     random_permutation_perm := λ g n, reflexivity (seq 0 n) |}.

(** ** Generators *)

(** The result of one call of [next] on a generator in state [S]. *)
Inductive outcome (S : Type) :=
  | Yield (batch : list nat) (s : S)
  | Stop                (* StopIteration *)
  | Throw (e : exn)
  | Diverge.            (* the call never returns *)
Arguments Yield {S} batch s.
Arguments Stop {S}.
Arguments Throw {S} e.
Arguments Diverge {S}.

Record generator `{RandomSource} := {
  gen_state : Type;
  gen_init : gen_state;
  gen_next : gen_state → rng → outcome gen_state * rng
}.

(** How a bounded number of calls of [next] ended. *)
Inductive ending (S : Type) :=
  | Suspended (s : S)   (* every call yielded *)
  | Exhausted
  | Raised (e : exn)
  | Diverged.
Arguments Suspended {S} s.
Arguments Exhausted {S}.
Arguments Raised {S} e.
Arguments Diverged {S}.

Section pulls.
Context `{RandomSource} {St : Type}.
Variable next : St → rng → outcome St * rng.

(** The batches obtained by calling [next] up to [n] times. *)
Fixpoint pulls (n : nat) (s : St) (g : rng)
  : list (list nat) * ending St * rng :=
  match n with
  | 0 => ([], Suspended s, g)
  | S n =>
      match next s g with
      | (Yield batch s, g) =>
          let '(batches, e, g) := pulls n s g in (batch :: batches, e, g)
      | (Stop, g) => ([], Exhausted, g)
      | (Throw e, g) => ([], Raised e, g)
      | (Diverge, g) => ([], Diverged, g)
      end
  end.

Definition yields (n : nat) (s : St) (g : rng) : list (list nat) :=
  (pulls n s g).1.1.
End pulls.

(** ** The bucketed schedule *)

Record schedule_kwargs := {
  shuffle : bool;
  repeat : bool;
  fuzzyness : Z;
  sort : bool
}.

(** The defaults of [bucket_schedule]. *)
Definition default_kwargs : schedule_kwargs :=
  {| shuffle := false; repeat := false; fuzzyness := 3; sort := false |}.

(** Modelled from the spec: [frostings.loader.get_number_of_batches] is
    not among the sources.  The spec: "Computes the number of batches as
    ceil(num_samples / batch_size)"; [bucket_schedule] iterates over the
    result, so it is the sequence of batch numbers. *)
Definition get_number_of_batches (batch_size num_samples : nat)
  : result (list nat) :=
  if decide (batch_size = 0) then Raise ZeroDivisionError
  else Ok (seq 0 ((num_samples + batch_size - 1) / batch_size)).

(** Modelled from the spec: [frostings.loader.get_start_end_indices] is
    not among the sources.  The spec: "Slice boundaries are computed by an
    even-partition rule over [0, num_samples) for the given batch_size",
    every batch being full but the remainder. *)
Definition get_start_end_indices (batch batch_size num_samples : nat)
  : nat * nat :=
  (batch * batch_size, Nat.min ((batch + 1) * batch_size) num_samples).

(** The sort key of a sample. *)
Definition length_key (fuzzyness : Z) (s : sample) : Z :=
  (Z.shiftl (Z.of_nat (length s.1) / fuzzyness) 14
   + Z.of_nat (length s.2) / fuzzyness)%Z.

(** The array of rows [(i, key)], one per sample. *)
Definition make_sample_indices (samples : list sample) (fuzzyness : Z)
  : result (list (nat * Z)) :=
  match samples with
  | [] => Ok []
  | _ =>
      if decide (fuzzyness = 0)%Z then Raise ZeroDivisionError
      else Ok (imap (λ i s, (i, length_key fuzzyness s)) samples)
  end.

(** A stable sort of the rows by key, ascending: what indexing with
    [argsort(kind='mergesort')] of the key column gives. *)
Fixpoint insert_by_key (row : nat * Z) (rows : list (nat * Z))
  : list (nat * Z) :=
  match rows with
  | [] => [row]
  | row' :: rows' =>
      if decide (row.2 ≤ row'.2)%Z then row :: rows
      else row' :: insert_by_key row rows'
  end.

Definition stable_sort_by_key (rows : list (nat * Z)) : list (nat * Z) :=
  foldr insert_by_key [] rows.

(** [rows[rows[:, 1].argsort(kind='mergesort')]]; with no sample the array
    has one axis and [rows[:, 1]] is an [IndexError]. *)
Definition sort_rows (rows : list (nat * Z)) : result (list (nat * Z)) :=
  match rows with
  | [] => Raise IndexError
  | _ => Ok (stable_sort_by_key rows)
  end.

(** [batch_size] is a count and is taken in [nat]; a size of zero is the
    division by zero of [get_number_of_batches]. *)
Section bucket_schedule.
Context `{RandomSource}.
Variables (loader : TextLoader) (batch_size : nat).
Variable kw : schedule_kwargs.

(** Where the generator is suspended: before its first statement, or at
    the [yield] inside the [for] loop with [pending] batch numbers left. *)
Inductive bs_state :=
  | BsEntry
  | BsFor (sample_indices : list (nat * Z)) (num_samples : nat)
          (batch_numbers pending : list nat).

(** [sample_indices[start:end, 0]] for one batch number.  The source
    yields a view of the index array; a batch here is the content of that
    view when it is yielded. *)
Definition bs_batch (sample_indices : list (nat * Z)) (num_samples : nat)
    (batch : nat) : list nat :=
  let '(start, end_) := get_start_end_indices batch batch_size num_samples in
  (take (end_ - start) (drop start sample_indices)).*1.

(** The statements before the [while] loop. *)
Definition bs_enter : result (list (nat * Z) * nat * list nat) :=
  sample_indices ← make_sample_indices (loader_samples loader) (fuzzyness kw);
  sample_indices ←
    (if sort kw then sort_rows sample_indices else Ok sample_indices);
  let num_samples := length sample_indices in
  batch_numbers ← get_number_of_batches batch_size num_samples;
  Ok (sample_indices, num_samples, batch_numbers).

(** The [if shuffle:] block at the head of the loop body. *)
Definition bs_reshuffle (sample_indices : list (nat * Z))
    (batch_numbers : list nat) (g : rng)
  : result (list (nat * Z) * list nat) * rng :=
  if shuffle kw then
    let '(sample_indices, g) := np_random_shuffle sample_indices g in
    match sort_rows sample_indices with
    | Raise e => (Raise e, g)
    | Ok sample_indices =>
        let '(batch_numbers, g) := np_random_permutation batch_numbers g in
        (Ok (sample_indices, batch_numbers), g)
    end
  else (Ok (sample_indices, batch_numbers), g).

(** From the head of the [while] loop to the next [yield]. *)
Definition bs_loop_head (sample_indices : list (nat * Z)) (num_samples : nat)
    (batch_numbers : list nat) (g : rng) : outcome bs_state * rng :=
  match bs_reshuffle sample_indices batch_numbers g with
  | (Raise e, g) => (Throw e, g)
  | (Ok (sample_indices, batch_numbers), g) =>
      match batch_numbers with
      | batch :: pending =>
          (Yield (bs_batch sample_indices num_samples batch)
                 (BsFor sample_indices num_samples batch_numbers pending), g)
      | [] => (if repeat kw then Diverge else Stop, g)
      end
  end.

Definition bs_next (st : bs_state) (g : rng) : outcome bs_state * rng :=
  match st with
  | BsEntry =>
      match bs_enter with
      | Raise e => (Throw e, g)
      | Ok (sample_indices, num_samples, batch_numbers) =>
          bs_loop_head sample_indices num_samples batch_numbers g
      end
  | BsFor sample_indices num_samples batch_numbers (batch :: pending) =>
      (Yield (bs_batch sample_indices num_samples batch)
             (BsFor sample_indices num_samples batch_numbers pending), g)
  | BsFor sample_indices num_samples batch_numbers [] =>
      if repeat kw
      then bs_loop_head sample_indices num_samples batch_numbers g
      else (Stop, g)
  end.

Definition bucket_schedule : generator :=
  {| gen_state := bs_state; gen_init := BsEntry; gen_next := bs_next |}.
End bucket_schedule.

(** ** The warmup-composed schedule *)

Definition schedule_function `{RandomSource} : Type :=
  TextLoader → nat → schedule_kwargs → generator.

Definition warmup_kwargs : schedule_kwargs :=
  {| shuffle := false; repeat := false; fuzzyness := 1; sort := true |}.

Section warmup_schedule.
Context `{RandomSource}.
Variables (loader : TextLoader) (batch_size : nat).
Variable warmup_iterations : Z.
Variables warmup_function regular_function : option schedule_function.
Variable kwargs : schedule_kwargs.

(** The generator of the first loop and the generator of the second. *)
Definition ws_warmup_generator : generator :=
  default bucket_schedule warmup_function loader batch_size warmup_kwargs.

Definition ws_regular_generator : generator :=
  default bucket_schedule regular_function loader batch_size kwargs.

(** Suspended at the [yield] of the first loop, [i] being the next value
    of the [enumerate] counter, or at the [yield] of the second loop. *)
Inductive ws_state :=
  | WsWarmup (i : nat) (s : gen_state ws_warmup_generator)
  | WsRegular (s : gen_state ws_regular_generator).

(** One iteration of the second loop. *)
Definition ws_regular (s : gen_state ws_regular_generator) (g : rng)
  : outcome ws_state * rng :=
  match gen_next ws_regular_generator s g with
  | (Yield indices s, g) => (Yield indices (WsRegular s), g)
  | (Stop, g) => (Stop, g)
  | (Throw e, g) => (Throw e, g)
  | (Diverge, g) => (Diverge, g)
  end.

Definition ws_next (st : ws_state) (g : rng) : outcome ws_state * rng :=
  match st with
  | WsWarmup i s =>
      match gen_next ws_warmup_generator s g with
      | (Yield indices s, g) =>
          if decide (Z.of_nat i = warmup_iterations)
          then ws_regular (gen_init ws_regular_generator) g
          else (Yield indices (WsWarmup (S i) s), g)
      | (Stop, g) => ws_regular (gen_init ws_regular_generator) g
      | (Throw e, g) => (Throw e, g)
      | (Diverge, g) => (Diverge, g)
      end
  | WsRegular s => ws_regular s g
  end.

Definition warmup_schedule : generator :=
  {| gen_state := ws_state;
     gen_init := WsWarmup 0 (gen_init ws_warmup_generator);
     gen_next := ws_next |}.
End warmup_schedule.

(** ** Arrays *)

Record ndarray := { shape : list nat; data : list Z }.

Definition prod_list (ns : list nat) : nat := foldr Nat.mul 1 ns.

(** [np.zeros(shape)] *)
Definition np_zeros (dims : list Z) : result ndarray :=
  if decide (Forall (λ d, 0 ≤ d)%Z dims) then
    let shape := Z.to_nat <$> dims in
    Ok {| shape := shape; data := replicate (prod_list shape) 0%Z |}
  else Raise ValueError.

(** [np.ones([n, 1]) * v] *)
Definition np_column (n : nat) (v : Z) : ndarray :=
  {| shape := [n; 1]; data := replicate n v |}.

(** [np.array(values)] for a flat list. *)
Definition np_vector (values : list Z) : ndarray :=
  {| shape := [length values]; data := values |}.

(** [n] consecutive pieces of length [m]. *)
Fixpoint chunks {A} (n m : nat) (l : list A) : list (list A) :=
  match n with
  | 0 => []
  | S n => take m l :: chunks n m (drop m l)
  end.

(** The sub-arrays [a[0], a[1], ...], each flattened. *)
Definition array_rows (a : ndarray) : list (list Z) :=
  match shape a with
  | n :: inner => chunks n (prod_list inner) (data a)
  | [] => []
  end.

(** The number of positions that [[:k]] selects among [m]. *)
Definition slice_width (m : nat) (k : Z) : nat :=
  if decide (0 ≤ k)%Z then Nat.min (Z.to_nat k) m else m - Z.to_nat (- k).

(** [a[i, :k] = values] on an array with two axes. *)
Definition assign_row_prefix (a : ndarray) (i : nat) (k : Z) (values : list Z)
  : result ndarray :=
  match shape a with
  | [n; m] =>
      if decide (i < n) then
        let width := slice_width m k in
        values ←
          (if decide (length values = width) then Ok values
           else match values with
                | [v] => Ok (replicate width v)
                | _ => Raise ValueError
                end);
        Ok {| shape := shape a;
              data := take (i * m) (data a) ++ values
                      ++ drop (i * m + width) (data a) |}
      else Raise IndexError
  | _ => Raise IndexError
  end.

(** [a[:, :-1]] *)
Definition drop_last_column (a : ndarray) : result ndarray :=
  match shape a with
  | n :: m :: inner =>
      Ok {| shape := n :: (m - 1) :: inner;
            data := concat (take ((m - 1) * prod_list inner) <$> array_rows a) |}
  | _ => Raise IndexError
  end.

(** [np.concatenate([a, b], 1)] *)
Definition np_concatenate1 (a b : ndarray) : result ndarray :=
  match shape a, shape b with
  | n :: m :: inner, n' :: m' :: inner' =>
      if decide (n = n' ∧ inner = inner') then
        Ok {| shape := n :: (m + m') :: inner;
              data := concat (zip_with app (array_rows a) (array_rows b)) |}
      else Raise ValueError
  | _, _ => Raise ValueError
  end.

(** [np.expand_dims(a, axis=-1)] *)
Definition np_expand_dims_last (a : ndarray) : ndarray :=
  {| shape := shape a ++ [1]; data := data a |}.

(** The position of an index tuple in the buffer. *)
Fixpoint ravel (dims index : list nat) (acc : nat) : option nat :=
  match dims, index with
  | [], [] => Some acc
  | d :: dims, i :: index =>
      if decide (i < d) then ravel dims index (acc * d + i) else None
  | _, _ => None
  end.

(** [a[index]] for a full index tuple. *)
Definition item (a : ndarray) (index : list nat) : option Z :=
  position ← ravel (shape a) index 0;
  data a !! position.

(** ** The batch generator *)

Record Alphabet := { encode : text → list Z; sos_id : Z }.

(** The attributes of a [TextBatchGenerator].  [samples] and
    [latest_batch_size] are those the base class sets for the batch being
    made. *)
Record TextBatchGenerator := {
  samples : list sample;
  latest_batch_size : nat;
  alphabet : Alphabet;
  seq_len : Z;
  add_feature_dim : bool;
  use_dynamic_array_sizes : bool;
  add_eos_character : bool
}.

Definition _make_len_vec {A} (sequences : list (list A)) (offset max_len : Z)
  : ndarray :=
  np_vector ((λ seq, Z.min (Z.of_nat (length seq) + offset) max_len)
             <$> sequences).

(** [not max_len] *)
Definition not_given (max_len : option Z) : bool :=
  match max_len with
  | None => true
  | Some z => bool_decide (z = 0)%Z
  end.

Section batch_generator.
Variable self : TextBatchGenerator.

Definition _spaces (sentence : text) : list Z :=
  let sentence :=
    if add_eos_character self then sentence ++ [" "%char] else sentence in
  let spaces :=
    omap (λ ic, if decide (ic.2 = " "%char)
                then Some (Z.of_nat ic.1 - 1)%Z else None)
         (imap pair sentence) in
  spaces ++ [(Z.of_nat (length sentence) - 1)%Z].

Definition _mask (sentence : text) : list Z :=
  let mask := replicate (length sentence) 1%Z in
  if add_eos_character self then mask ++ [1%Z] else mask.

(** The copying loop of [_make_array]. *)
Fixpoint fill_rows (array : ndarray) (max_len : Z) (function : text → list Z)
    (rows : list (nat * text)) : result ndarray :=
  match rows with
  | [] => Ok array
  | (sample_idx, seq) :: rows =>
      let processed_seq := function seq in
      let length_ := Z.min max_len (Z.of_nat (length processed_seq)) in
      array ← assign_row_prefix array sample_idx length_
                (slice_to processed_seq max_len);
      fill_rows array max_len function rows
  end.

Definition _make_array (sequences : list text) (function : text → list Z)
    (max_len : option Z) : result ndarray :=
  max_len ←
    (if use_dynamic_array_sizes self || not_given max_len
     then longest ← py_max (length <$> sequences); Ok (Z.of_nat longest)
     else Ok (default 0%Z max_len));
  array ← np_zeros [Z.of_nat (latest_batch_size self); max_len];
  fill_rows array max_len function (imap pair sequences).

Definition _add_sos (array : ndarray) : result ndarray :=
  let sos_col := np_column (latest_batch_size self) (sos_id (alphabet self)) in
  shortened ← drop_last_column array;
  np_concatenate1 sos_col shortened.

(** Unzipping [self.samples] into [x] and [t]; two values are unpacked,
    which fails when there is no sample. *)
Definition unzip_samples : result (list text * list text) :=
  match samples self with
  | [] => Raise ValueError
  | _ => Ok ((samples self).*1, (samples self).*2)
  end.

(** The batch before the feature dimension is added. *)
Definition plain_batch : result (gmap string ndarray) :=
  let encode := encode (alphabet self) in
  '(x, t) ← unzip_samples;
  x_encoded ← _make_array x encode (Some (seq_len self));
  t_encoded ← _make_array t encode (Some (seq_len self));
  t_encoded_go ← _add_sos t_encoded;
  x_spaces ← _make_array x _spaces (Some (seq_len self / 4)%Z);
  t_mask ← _make_array t _mask (Some (seq_len self));
  let eos := if add_eos_character self then 1%Z else 0%Z in
  let x_len := _make_len_vec x eos 100000 in
  let t_len := _make_len_vec t eos 100000 in
  let spaces_x := _spaces <$> x in
  let x_spaces_len := _make_len_vec spaces_x 0 (seq_len self / 4)%Z in
  Ok (<["x_spaces_len" := x_spaces_len]>
      (<["t_len" := t_len]>
      (<["x_len" := x_len]>
      (<["t_mask" := t_mask]>
      (<["x_spaces" := x_spaces]>
      (<["t_encoded_go" := t_encoded_go]>
      (<["t_encoded" := t_encoded]>
      (<["x_encoded" := x_encoded]> ∅)))))))).

(** [batch.iteritems()].  The module runs under Python 3 ([_load_data]
    opens its files with [open(..., encoding=...)]), where a [dict] has no
    attribute [iteritems]: evaluating it raises [AttributeError], whatever
    the dict holds. *)
Definition dict_iteritems {A} (d : gmap string A)
  : result (list (string * A)) :=
  Raise AttributeError.

Definition _make_batch : result (gmap string ndarray) :=
  match plain_batch with
  | Ok batch =>
      if add_feature_dim self then
        match dict_iteritems batch with
        | Ok items =>
            Ok (foldl (λ batch item,
                         <[item.1 := np_expand_dims_last item.2]> batch)
                      batch items)
        | Raise e => Raise e
        end
      else Ok batch
  | Raise e => Raise e
  end.
End batch_generator.

(** ** Vocabulary of the properties *)

(** The lines of a list of files, in order. *)
Definition lines_of (contents : list text) : list text :=
  concat (split newline <$> contents).

(** What the filtering invariant asks of one side of a sample. *)
Definition length_in_range (seq_len : Z) (s : text) : Prop :=
  1 < length s ∧ (Z.of_nat (length s) ≤ seq_len - 1)%Z.

(** The number of batches [get_number_of_batches] counts. *)
Definition number_of_batches (batch_size num_samples : nat) : nat :=
  (num_samples + batch_size - 1) / batch_size.

(** At most one batch of an epoch is shorter than [batch_size]. *)
Definition at_most_one_short (batch_size : nat) (epoch : list (list nat))
  : Prop :=
  ∀ i j bi bj,
    epoch !! i = Some bi → epoch !! j = Some bj →
    length bi < batch_size → length bj < batch_size → i = j.

(** A batch shorter than [batch_size] is the last one of its epoch. *)
Definition short_batches_last (batch_size : nat) (epoch : list (list nat))
  : Prop :=
  ∀ i batch,
    epoch !! i = Some batch → length batch < batch_size → S i = length epoch.

Section schedule_vocabulary.
Variables (loader : TextLoader) (batch_size : nat) (kw : schedule_kwargs).

Local Abbreviation num_samples := (length (loader_samples loader)).
Local Abbreviation num_batches := (number_of_batches batch_size num_samples).

(** What holds of the index array and of the batch numbers whenever the
    generator is at the head or at the end of its [for] loop. *)
Definition bs_invariant (rows : list (nat * Z)) (numbers : list nat) : Prop :=
  rows.*1 ≡ₚ seq 0 num_samples
  ∧ numbers ≡ₚ seq 0 num_batches
  ∧ (shuffle kw = false → numbers = seq 0 num_batches).

(** The batches of one epoch: one per batch number, each a slice. *)
Definition epoch_of (rows : list (nat * Z)) (numbers : list nat)
  : list (list nat) :=
  bs_batch batch_size rows num_samples <$> numbers.

Definition epoch_shape (epoch : list (list nat)) : Prop :=
  length epoch = num_batches
  ∧ Forall (λ batch, length batch ≤ batch_size) epoch
  ∧ at_most_one_short batch_size epoch
  ∧ (shuffle kw = false → short_batches_last batch_size epoch)
  ∧ concat epoch ≡ₚ seq 0 num_samples.
End schedule_vocabulary.

(** The buffer of a well-formed array has one entry per index tuple. *)
Definition well_formed (a : ndarray) : Prop :=
  length (data a) = prod_list (shape a).

(** The width [_make_array] settles on. *)
Definition chosen_width (self : TextBatchGenerator) (sequences : list text)
    (max_len : option Z) : result Z :=
  if use_dynamic_array_sizes self || not_given max_len
  then longest ← py_max (length <$> sequences); Ok (Z.of_nat longest)
  else Ok (default 0%Z max_len).

(** ** Concrete inputs *)

Definition two_near_duplicates : list sample :=
  [(txt "abcd", txt "xy"); (txt "abce", txt "xy")].

(** A source of three lines and a target of two. *)
Definition uneven_files : gmap string text :=
  <["x.txt" := txt "good morning" ++ [newline] ++ txt "good night"
               ++ [newline] ++ txt "left over"]>
  (<["t.txt" := txt "bonjour" ++ [newline] ++ txt "bonne nuit"]> ∅).

(** A loader holding the given samples. *)
Definition loader_of (samples : list sample) : TextLoader :=
  {| loader_paths_X := []; loader_paths_t := [];
     loader_seq_len := 0; loader_samples := samples |}.

Definition three_samples : TextLoader :=
  loader_of [(txt "ab", txt "cd"); (txt "abc", txt "cde");
             (txt "abcd", txt "cdef")].

Definition ten_samples : TextLoader :=
  loader_of ((λ n, (replicate (12 - n) "a"%char, replicate (2 + n) "b"%char))
             <$> seq 0 10).

Definition shuffling : schedule_kwargs :=
  {| shuffle := true; repeat := false; fuzzyness := 3; sort := false |}.

(** A small alphabet: the code point of each character, then [42] for the
    end-of-sequence marker. *)
Definition ascii_alphabet : Alphabet :=
  {| encode := λ s, ((λ c, Z.of_nat (nat_of_ascii c)) <$> s) ++ [42%Z];
     sos_id := 7 |}.

Definition greeting : TextBatchGenerator :=
  {| samples := [(txt "hi there", txt "salut")];
     latest_batch_size := 1;
     alphabet := ascii_alphabet;
     seq_len := 10;
     add_feature_dim := false;
     use_dynamic_array_sizes := false;
     add_eos_character := true |}.

Definition with_dynamic_sizes (b : bool) (self : TextBatchGenerator)
  : TextBatchGenerator :=
  {| samples := samples self;
     latest_batch_size := latest_batch_size self;
     alphabet := alphabet self;
     seq_len := seq_len self;
     add_feature_dim := add_feature_dim self;
     use_dynamic_array_sizes := b;
     add_eos_character := add_eos_character self |}.

Definition with_feature_dim (b : bool) (self : TextBatchGenerator)
  : TextBatchGenerator :=
  {| samples := samples self;
     latest_batch_size := latest_batch_size self;
     alphabet := alphabet self;
     seq_len := seq_len self;
     add_feature_dim := b;
     use_dynamic_array_sizes := use_dynamic_array_sizes self;
     add_eos_character := add_eos_character self |}.

Definition with_seq_len (n : Z) (self : TextBatchGenerator)
  : TextBatchGenerator :=
  {| samples := samples self;
     latest_batch_size := latest_batch_size self;
     alphabet := alphabet self;
     seq_len := n;
     add_feature_dim := add_feature_dim self;
     use_dynamic_array_sizes := use_dynamic_array_sizes self;
     add_eos_character := add_eos_character self |}.


(** ** Vocabulary of the further properties *)

(** A processed sequence as a row of width [width]: cut on the right, or
    filled with zeros on the right. *)
Definition padded_row (width : nat) (processed : list Z) : list Z :=
  take width processed ++ replicate (width - length processed) 0%Z.

(** A batch of one sample of the loader built from [uneven_files]. *)
Definition uneven_loader_batch : TextBatchGenerator :=
  {| samples := [(txt "good night", txt "bonne nuit")];
     latest_batch_size := 1;
     alphabet := ascii_alphabet;
     seq_len := 12;
     add_feature_dim := false;
     use_dynamic_array_sizes := false;
     add_eos_character := true |}.

(** ** Dictionaries for printing ([utils.py]) *)

(** The outcome of subscripting dicts: a value, or the [KeyError] of the
    key that is missing. *)
Inductive keyed (K A : Type) :=
  | Found (a : A)
  | KeyError (key : K).
Arguments Found {K A} a.
Arguments KeyError {K A} key.

(** [[ num_to_char_dict[x] for x in list_to_find ]] *)
Fixpoint dict_to_char {K V} `{Countable K} (num_to_char_dict : gmap K V)
    (list_to_find : list K) : keyed K (list V) :=
  match list_to_find with
  | [] => Found []
  | x :: list_to_find =>
      match num_to_char_dict !! x with
      | None => KeyError x
      | Some char =>
          match dict_to_char num_to_char_dict list_to_find with
          | Found chars => Found (char :: chars)
          | KeyError key => KeyError key
          end
      end
  end.

(** A small dict from numbers to characters. *)
Definition abc_dict : gmap nat string :=
  <[0 := "a"]> (<[1 := "b"]> (<[2 := "c"]> ∅)).

(** * Properties *)

(** ** The sample loader *)

Section loader_facts.
Context `{HashOrder}.

Lemma slice_to_length {A} (l : list A) (k : Z) :
  length (slice_to l k) = slice_width (length l) k.
Proof.
  unfold slice_to, slice_width.
  case_decide; rewrite length_take; lia.
Qed.

Lemma split_nonempty sep s : split sep s ≠ [].
Proof.
  destruct s as [|c s]; simpl; [done|].
  case_decide; [done|]. by destruct (split sep s).
Qed.

Lemma percentage_ok after before :
  before ≠ 0 → percentage after before = Ok ().
Proof. intros. unfold percentage. by case_decide. Qed.

Lemma elem_of_filter_samples samples s :
  s ∈ _filter_samples samples Inf
  ↔ s ∈ samples ∧ 1 < length s.1 ∧ 1 < length s.2.
Proof.
  unfold _filter_samples.
  rewrite set_to_list_elem, !list_elem_of_filter. simpl. tauto.
Qed.

Lemma load_streams_ok fs paths contents data_X data_t :
  Forall2 (λ p c, fs !! p.1 = Some c.1 ∧ fs !! p.2 = Some c.2)
          paths contents →
  load_streams fs paths data_X data_t
  = Ok (data_X ++ concat (split newline <$> contents.*1),
        data_t ++ concat (split newline <$> contents.*2)).
Proof.
  intros Hall. revert data_X data_t.
  induction Hall as [|[pX pt] [cX ct] paths contents [HX Ht] _ IH];
    intros data_X data_t; simpl in *.
  - by rewrite !app_nil_r.
  - unfold open_read. rewrite HX, Ht. simpl.
    rewrite IH. by rewrite <- !(assoc_L (++)).
Qed.
End loader_facts.

(** C1, as stated, fails: deduplication runs before truncation, so two
    distinct pairs that agree on their first [seq_len-1] characters are both
    retained and become equal (here with [seq_len = 4]); and with
    [seq_len = 2] truncation leaves one character on each side. *)
Lemma preprocess_counterexample :
  (@_preprocess_data insertion_order two_near_duplicates 4
   = Ok [(txt "abc", txt "xy"); (txt "abc", txt "xy")]
   ∧ ¬ NoDup [(txt "abc", txt "xy"); (txt "abc", txt "xy")])
  ∧ (@_preprocess_data insertion_order [(txt "abcd", txt "xy")] 2
     = Ok [(txt "a", txt "x")]
     ∧ ¬ length_in_range 2 (txt "a")).
Proof.
  split; split.
  - reflexivity.
  - intros Hnd. apply NoDup_cons in Hnd as [Hnotin _].
    apply Hnotin. left.
  - reflexivity.
  - unfold length_in_range. simpl. lia.
Qed.

(** The duplicate does not depend on the order in which the set is
    listed. *)
Lemma preprocess_duplicates_any_order `{HashOrder} retained :
  _preprocess_data two_near_duplicates 4 = Ok retained → ¬ NoDup retained.
Proof.
  unfold _preprocess_data. simpl. intros [= <-] Hnd.
  pose proof (elem_of_filter_samples two_near_duplicates (txt "abcd", txt "xy"))
    as [_ H1].
  pose proof (elem_of_filter_samples two_near_duplicates (txt "abce", txt "xy"))
    as [_ H2].
  unfold two_near_duplicates in *.
  set (kept := _filter_samples _ _) in *.
  assert (Hin1 : (txt "abcd", txt "xy") ∈ kept).
  { apply H1. split; [left|simpl; lia]. }
  assert (Hin2 : (txt "abce", txt "xy") ∈ kept).
  { apply H2. split; [right; left|simpl; lia]. }
  apply list_elem_of_lookup in Hin1 as [i Hi], Hin2 as [j Hj].
  assert (i ≠ j) by (intros ->; rewrite Hi in Hj; by inversion Hj).
  apply (NoDup_lookup _ i j (txt "abc", txt "xy")) in Hnd; [done|..];
    unfold _truncate_samples; rewrite list_lookup_fmap.
  - by rewrite Hi.
  - by rewrite Hj.
Qed.

(** C1, amended.  For [seq_len >= 3] every retained sample has both sides of
    length in [(1, seq_len-1]], and the retained samples are the truncations
    to [seq_len-1] characters of a duplicate-free list: the stripped input
    pairs with both sides longer than one character. *)
Theorem preprocess_retained `{HashOrder} samples seq_len retained :
  (3 ≤ seq_len)%Z →
  _preprocess_data samples seq_len = Ok retained →
  Forall (λ s, length_in_range seq_len s.1 ∧ length_in_range seq_len s.2)
         retained
  ∧ ∃ kept,
      retained = _truncate_samples kept (seq_len - 1)
      ∧ NoDup kept
      ∧ ∀ s, s ∈ kept ↔
             s ∈ ((λ s, (strip s.1, strip s.2)) <$> samples)
             ∧ 1 < length s.1 ∧ 1 < length s.2.
Proof.
  intros Hlen. unfold _preprocess_data.
  destruct (percentage _ _); simpl; [|done]. intros [= <-].
  set (stripped := _ <$> samples).
  split.
  - unfold _truncate_samples. rewrite Forall_fmap. apply Forall_forall.
    intros s [_ [Hx Ht]]%elem_of_filter_samples. simpl.
    unfold length_in_range. rewrite !slice_to_length. unfold slice_width.
    case_decide; lia.
  - exists (_filter_samples stripped Inf). split; [done|]. split.
    + apply set_to_list_NoDup.
    + apply elem_of_filter_samples.
Qed.

Lemma preprocess_retained_witness :
  ∃ retained,
    @_preprocess_data insertion_order
      [(txt " hello ", txt "bonjour"); (txt "a", txt "b")] 5 = Ok retained
    ∧ Forall (λ s, length_in_range 5 s.1 ∧ length_in_range 5 s.2) retained.
Proof.
  eexists. split; [reflexivity|].
  apply (@preprocess_retained insertion_order
           [(txt " hello ", txt "bonjour"); (txt "a", txt "b")] 5);
    [lia | reflexivity].
Defined.

(** C9, as stated, fails when one of the path lists is empty: the lists have
    different lengths, no file is read, and the retention report divides by
    the number of loaded samples, which is zero. *)
Lemma load_counterexample :
  length ["x.txt"] ≠ length (@nil string)
  ∧ is_Some (uneven_files !! "x.txt")
  ∧ _load_data uneven_files ["x.txt"] [] = Ok []
  ∧ @TextLoader_init insertion_order uneven_files ["x.txt"] [] 10
    = Raise ZeroDivisionError.
Proof. repeat split; [done | by eexists]. Qed.

(** C9, amended.  When both path lists are non-empty and the files that are
    paired can be read, construction raises no error, whatever the numbers of
    paths and of lines: only the first [min] paths of each list are read,
    line [i] of the source stream is paired with line [i] of the target
    stream, and pairing stops at the shorter stream, so that the lines of the
    longer stream beyond it are in no sample. *)
Theorem load_pairs_up_to_shorter_stream `{HashOrder} fs paths_X paths_t seq_len
    (contents : list (text * text)) :
  paths_X ≠ [] → paths_t ≠ [] →
  Forall2 (λ p c, fs !! p.1 = Some c.1 ∧ fs !! p.2 = Some c.2)
          (zip paths_X paths_t) contents →
  let data_X := lines_of contents.*1 in
  let data_t := lines_of contents.*2 in
  let paired := length data_X `min` length data_t in
  _load_data fs paths_X paths_t
  = Ok (zip (take paired data_X) (take paired data_t))
  ∧ length (zip (take paired data_X) (take paired data_t)) = paired
  ∧ ∃ loader,
      TextLoader_init fs paths_X paths_t seq_len = Ok loader
      ∧ _preprocess_data (zip (take paired data_X) (take paired data_t)) seq_len
        = Ok (loader_samples loader).
Proof.
  intros HX Ht Hall data_X data_t paired.
  assert (Hzip : zip (take paired data_X) (take paired data_t)
                 = zip data_X data_t).
  { unfold paired. rewrite zip_with_take_l' by (rewrite length_take; lia).
    by rewrite zip_with_take_r' by lia. }
  assert (Hload : _load_data fs paths_X paths_t = Ok (zip data_X data_t)).
  { unfold _load_data. by rewrite (load_streams_ok _ _ _ _ _ Hall). }
  assert (Hpaired : 0 < paired).
  { destruct paths_X as [|pX paths_X], paths_t as [|pt paths_t]; try done.
    simpl in Hall. apply Forall2_cons_inv_l in Hall as ([cX ct] & ? & _ & _ & ->).
    unfold paired, data_X, data_t, lines_of. simpl.
    pose proof (split_nonempty newline cX). pose proof (split_nonempty newline ct).
    rewrite !length_app.
    destruct (split newline cX), (split newline ct); simpl; try done; lia. }
  rewrite Hzip, Hload. split; [done|]. split.
  { rewrite length_zip_with. unfold paired. lia. }
  unfold TextLoader_init. rewrite Hload. simpl.
  unfold _preprocess_data. rewrite percentage_ok.
  - simpl. eexists. split; [reflexivity|done].
  - rewrite length_fmap, length_zip_with. unfold paired in Hpaired. lia.
Qed.

Lemma load_pairs_up_to_shorter_stream_witness :
  ∃ loader,
    @TextLoader_init insertion_order uneven_files ["x.txt"] ["t.txt"] 10
    = Ok loader
    ∧ length (loader_samples loader) = 2.
Proof.
  destruct (@load_pairs_up_to_shorter_stream insertion_order uneven_files
              ["x.txt"] ["t.txt"] 10
              [(txt "good morning" ++ [newline] ++ txt "good night"
                ++ [newline] ++ txt "left over",
                txt "bonjour" ++ [newline] ++ txt "bonne nuit")])
    as (_ & _ & loader & Hinit & Hsamples).
  - done.
  - done.
  - repeat constructor.
  - exists loader. split; [exact Hinit|].
    change (match Ok (loader_samples loader) with
            | Ok l => length l | Raise _ => 0 end = 2).
    rewrite <- Hsamples. reflexivity.
Defined.

(** ** Permutations, sorting and slicing *)

Lemma omap_after_fmap {A B C} (f : B → option C) (g : A → B) (l : list A) :
  omap f (g <$> l) = omap (f ∘ g) l.
Proof. induction l as [|a l IH]; csimpl; [done|]. by rewrite IH. Qed.

Lemma permute_seq {A} (xs : list A) : permute (seq 0 (length xs)) xs = xs.
Proof.
  unfold permute. induction xs as [|x xs IH]; [done|].
  simpl. f_equal. rewrite <- fmap_S_seq, omap_after_fmap. exact IH.
Qed.

Lemma permute_Permutation {A} (positions : list nat) (xs : list A) :
  positions ≡ₚ seq 0 (length xs) → permute positions xs ≡ₚ xs.
Proof.
  intros Hp. rewrite <- (permute_seq xs) at 2.
  unfold permute. by rewrite Hp.
Qed.

Lemma np_random_shuffle_Permutation `{RandomSource} {A} (xs : list A) g :
  (np_random_shuffle xs g).1 ≡ₚ xs.
Proof.
  unfold np_random_shuffle.
  pose proof (random_permutation_perm g (length xs)) as Hp.
  destruct (random_permutation g (length xs)) as [positions g'].
  by apply permute_Permutation.
Qed.

Lemma insert_by_key_Permutation row rows :
  insert_by_key row rows ≡ₚ row :: rows.
Proof.
  induction rows as [|row' rows IH]; simpl; [done|].
  case_decide; [done|]. rewrite IH. apply Permutation_swap.
Qed.

Lemma stable_sort_by_key_Permutation rows : stable_sort_by_key rows ≡ₚ rows.
Proof.
  induction rows as [|row rows IH]; simpl; [done|].
  by rewrite insert_by_key_Permutation, IH.
Qed.

Lemma sort_rows_ok rows :
  rows ≠ [] → sort_rows rows = Ok (stable_sort_by_key rows).
Proof. by destruct rows. Qed.

Lemma concat_Permutation {A} (ls ks : list (list A)) :
  ls ≡ₚ ks → concat ls ≡ₚ concat ks.
Proof.
  induction 1 as [|l ls ks _ IH|l k ls|ls ks ms _ IH1 _ IH2]; simpl.
  - done.
  - by rewrite IH.
  - rewrite !(assoc_L (++)). by rewrite (comm (++) k l).
  - by rewrite IH1.
Qed.

Lemma number_of_batches_covers batch_size n :
  0 < batch_size → n ≤ number_of_batches batch_size n * batch_size.
Proof.
  intros Hb. unfold number_of_batches.
  pose proof (Nat.div_mod_eq (n + batch_size - 1) batch_size).
  pose proof (Nat.mod_upper_bound (n + batch_size - 1) batch_size). nia.
Qed.

Lemma number_of_batches_tight batch_size n :
  0 < batch_size → 0 < n →
  (number_of_batches batch_size n - 1) * batch_size < n.
Proof.
  intros Hb Hn. unfold number_of_batches.
  pose proof (Nat.div_mod_eq (n + batch_size - 1) batch_size).
  pose proof (Nat.mod_upper_bound (n + batch_size - 1) batch_size). nia.
Qed.

Lemma number_of_batches_pos batch_size n :
  0 < batch_size → 0 < n → 0 < number_of_batches batch_size n.
Proof.
  intros Hb Hn. pose proof (number_of_batches_covers batch_size n Hb). nia.
Qed.

Section slices.
Context `{RandomSource}.
Variables (loader : TextLoader) (batch_size : nat).
Hypothesis batch_size_pos : 0 < batch_size.

Lemma bs_batch_length rows batch :
  length (bs_batch batch_size rows (length rows) batch)
  = batch_size `min` (length rows - batch * batch_size).
Proof.
  unfold bs_batch, get_start_end_indices.
  rewrite length_fmap, length_take, length_drop. nia.
Qed.

(** The slices of the first [k] batch numbers, in order, make up the
    first [k * batch_size] rows. *)
Lemma bs_batches_prefix rows k :
  concat (bs_batch batch_size rows (length rows) <$> seq 0 k)
  = (take (k * batch_size) rows).*1.
Proof.
  induction k as [|k IH]; [done|].
  rewrite seq_S, fmap_app, concat_app, IH. simpl. rewrite app_nil_r.
  unfold bs_batch, get_start_end_indices.
  rewrite <- fmap_app. f_equal.
  destruct (decide (k * batch_size ≤ length rows)).
  - rewrite take_take_drop.
    destruct (decide ((k + 1) * batch_size ≤ length rows)).
    + f_equal. nia.
    + rewrite !take_ge by nia. done.
  - rewrite Nat.min_r by nia.
    replace (length rows - k * batch_size) with 0 by lia.
    rewrite take_0, app_nil_r.
    rewrite !take_ge by nia. done.
Qed.

Lemma bs_batches_cover rows numbers :
  numbers ≡ₚ seq 0 (number_of_batches batch_size (length rows)) →
  concat (bs_batch batch_size rows (length rows) <$> numbers) ≡ₚ rows.*1.
Proof.
  intros Hp. rewrite (concat_Permutation _ _ (fmap_Permutation _ _ _ Hp)).
  rewrite bs_batches_prefix, take_ge; [done|].
  by apply number_of_batches_covers.
Qed.
End slices.

(** The sort is by key, ascending, and stable: rows of equal key keep their
    relative order. *)
Lemma insert_by_key_Sorted row rows :
  Sorted (λ r r' : nat * Z, (r.2 ≤ r'.2)%Z) rows →
  Sorted (λ r r' : nat * Z, (r.2 ≤ r'.2)%Z) (insert_by_key row rows).
Proof.
  induction rows as [|row' rows IH]; simpl; intros Hsorted.
  - apply Sorted_cons; [apply Sorted_nil|apply HdRel_nil].
  - case_decide.
    + apply Sorted_cons; [done|]. by apply HdRel_cons.
    + apply Sorted_inv in Hsorted as [Hrows Hhd].
      apply Sorted_cons; [by apply IH|].
      destruct rows as [|row'' rows]; simpl.
      * apply HdRel_cons. lia.
      * case_decide; apply HdRel_cons; [lia|]. by apply HdRel_inv in Hhd.
Qed.

Lemma stable_sort_by_key_Sorted rows :
  Sorted (λ r r' : nat * Z, (r.2 ≤ r'.2)%Z) (stable_sort_by_key rows).
Proof.
  induction rows as [|row rows IH]; simpl; [apply Sorted_nil|].
  by apply insert_by_key_Sorted.
Qed.

Lemma insert_by_key_filter (key : Z) row rows :
  filter (λ r : nat * Z, r.2 = key) (insert_by_key row rows)
  = filter (λ r : nat * Z, r.2 = key) (row :: rows).
Proof.
  induction rows as [|row' rows IH]; simpl; [done|].
  case_decide; [done|].
  rewrite (filter_cons _ row'), IH, !filter_cons.
  repeat case_decide; try done; lia.
Qed.

Lemma stable_sort_by_key_stable (key : Z) rows :
  filter (λ r : nat * Z, r.2 = key) (stable_sort_by_key rows)
  = filter (λ r : nat * Z, r.2 = key) rows.
Proof.
  induction rows as [|row rows IH]; simpl; [done|].
  by rewrite insert_by_key_filter, !filter_cons, IH.
Qed.

(** ** Runs of a generator *)

Section pulls_facts.
Context `{RandomSource} {St : Type}.
Variable next : St → rng → outcome St * rng.

(** Calling [next] [n + m] times is calling it [n] times and then [m]
    times, unless the first [n] calls already ended the run. *)
Lemma pulls_add n m s g :
  pulls next (n + m) s g
  = match pulls next n s g with
    | (batches, Suspended s', g') =>
        let '(more, e, g'') := pulls next m s' g' in
        (batches ++ more, e, g'')
    | ended => ended
    end.
Proof.
  revert s g. induction n as [|n IH]; intros s g; simpl.
  - by destruct (pulls next m s g) as [[??]?].
  - destruct (next s g) as [[batch s'| |e|] g']; try done.
    rewrite IH. destruct (pulls next n s' g') as [[batches [s''| |e|]] g''];
      try done.
    by destruct (pulls next m s'' g'') as [[??]?].
Qed.

(** Once exhausted, more calls change nothing. *)
Lemma pulls_exhausted n m s g batches g' :
  pulls next n s g = (batches, Exhausted, g') →
  pulls next (n + m) s g = (batches, Exhausted, g').
Proof. intros Hn. by rewrite pulls_add, Hn. Qed.
End pulls_facts.

(** ** The bucketed schedule *)

Section bucket_facts.
Context `{RandomSource}.
Variables (loader : TextLoader) (batch_size : nat) (kw : schedule_kwargs).
Hypothesis samples_nonempty : loader_samples loader ≠ [].
Hypothesis batch_size_pos : 0 < batch_size.
Hypothesis fuzzyness_nonzero : fuzzyness kw ≠ 0%Z.

Local Abbreviation num_samples := (length (loader_samples loader)).
Local Abbreviation num_batches := (number_of_batches batch_size num_samples).

Lemma bs_invariant_length rows numbers :
  bs_invariant loader batch_size kw rows numbers → length rows = num_samples.
Proof.
  intros (Hrows & _). apply Permutation_length in Hrows.
  by rewrite length_fmap, length_seq in Hrows.
Qed.

Lemma make_sample_indices_ok :
  make_sample_indices (loader_samples loader) (fuzzyness kw)
  = Ok (imap (λ i s, (i, length_key (fuzzyness kw) s)) (loader_samples loader)).
Proof.
  unfold make_sample_indices.
  destruct (loader_samples loader); [done|]. by case_decide.
Qed.

Lemma bs_enter_ok :
  ∃ rows numbers,
    bs_enter loader batch_size kw = Ok (rows, num_samples, numbers)
    ∧ bs_invariant loader batch_size kw rows numbers.
Proof.
  unfold bs_enter. rewrite make_sample_indices_ok. simpl.
  set (rows := imap _ _).
  assert (Hfst : rows.*1 = seq 0 num_samples).
  { unfold rows. rewrite fmap_imap.
    rewrite (imap_ext _ (λ j _, id j) _) by done.
    by rewrite imap_seq_0, list_fmap_id. }
  assert (Hne : rows ≠ []).
  { intros Hnil. apply (f_equal length) in Hnil. unfold rows in Hnil.
    rewrite length_imap in Hnil. by destruct (loader_samples loader). }
  assert (Hlen : length rows = num_samples).
  { unfold rows. by rewrite length_imap. }
  assert (Hnb : get_number_of_batches batch_size num_samples
                = Ok (seq 0 num_batches)).
  { unfold get_number_of_batches. case_decide; [lia|done]. }
  destruct (sort kw).
  - rewrite sort_rows_ok by done. simpl.
    pose proof (stable_sort_by_key_Permutation rows) as Hp.
    rewrite (Permutation_length Hp), Hlen, Hnb. simpl.
    eexists _, _. split; [done|]. split; [|done]. by rewrite Hp, Hfst.
  - simpl. rewrite Hlen, Hnb. simpl.
    eexists _, _. split; [done|]. split; [|done]. by rewrite Hfst.
Qed.

Lemma bs_reshuffle_ok rows numbers g :
  bs_invariant loader batch_size kw rows numbers →
  ∃ rows' numbers' g',
    bs_reshuffle kw rows numbers g = (Ok (rows', numbers'), g')
    ∧ bs_invariant loader batch_size kw rows' numbers'.
Proof.
  intros Hinv. pose proof (bs_invariant_length _ _ Hinv) as Hlen.
  destruct Hinv as (Hrows & Hnumbers & Hfixed).
  unfold bs_reshuffle. destruct (shuffle kw) eqn:Hshuffle.
  - pose proof (np_random_shuffle_Permutation rows g) as Hs.
    destruct (np_random_shuffle rows g) as [shuffled g1]. simpl in Hs.
    assert (shuffled ≠ []).
    { intros ->. apply Permutation_nil_l in Hs. subst rows.
      by destruct (loader_samples loader). }
    rewrite sort_rows_ok by done.
    unfold np_random_permutation.
    pose proof (np_random_shuffle_Permutation numbers g1) as Hn.
    destruct (np_random_shuffle numbers g1) as [numbers' g2]. simpl in Hn.
    eexists _, _, _. split; [done|]. split; [|split; [|congruence]].
    + by rewrite stable_sort_by_key_Permutation, Hs.
    + by rewrite Hn.
  - eexists _, _, _. split; [done|]. repeat split; auto.
Qed.

(** The calls that stay inside the [for] loop. *)
Lemma pulls_for rows numbers pending n g :
  n ≤ length pending →
  pulls (bs_next loader batch_size kw) n
        (BsFor rows num_samples numbers pending) g
  = (bs_batch batch_size rows num_samples <$> take n pending,
     Suspended (BsFor rows num_samples numbers (drop n pending)), g).
Proof.
  revert pending. induction n as [|n IH]; intros pending Hn; simpl.
  - by rewrite drop_0.
  - destruct pending as [|batch pending]; simpl in *; [lia|].
    rewrite IH by lia. done.
Qed.

(** One epoch, from the head of the [while] loop. *)
Lemma pulls_epoch st rows numbers g :
  bs_next loader batch_size kw st g
  = bs_loop_head batch_size kw rows num_samples numbers g →
  bs_invariant loader batch_size kw rows numbers →
  ∃ rows' numbers' g',
    pulls (bs_next loader batch_size kw) num_batches st g
    = (bs_batch batch_size rows' num_samples <$> numbers',
       Suspended (BsFor rows' num_samples numbers' []), g')
    ∧ bs_invariant loader batch_size kw rows' numbers'.
Proof.
  intros Hnext Hinv.
  destruct (bs_reshuffle_ok rows numbers g Hinv)
    as (rows' & numbers' & g' & Hre & Hinv').
  exists rows', numbers', g'. split; [|done].
  assert (Hlen : length numbers' = num_batches).
  { destruct Hinv' as (_ & Hn & _).
    by rewrite (Permutation_length Hn), length_seq. }
  assert (0 < num_batches).
  { apply number_of_batches_pos; [done|].
    destruct (loader_samples loader); [done|simpl; lia]. }
  destruct num_batches as [|k] eqn:Hk; [lia|].
  simpl. rewrite Hnext. unfold bs_loop_head. rewrite Hre.
  destruct numbers' as [|batch pending]; [done|].
  simpl in Hlen. rewrite pulls_for by lia.
  rewrite take_ge, drop_ge by lia. done.
Qed.

Lemma epoch_of_cover rows numbers :
  bs_invariant loader batch_size kw rows numbers →
  concat (epoch_of loader batch_size rows numbers) ≡ₚ seq 0 num_samples.
Proof.
  intros Hinv. pose proof (bs_invariant_length _ _ Hinv) as Hlen.
  destruct Hinv as (Hrows & Hnumbers & _).
  unfold epoch_of. rewrite <- Hlen.
  rewrite bs_batches_cover; [by rewrite Hlen|done|by rewrite Hlen].
Qed.

(** A batch shorter than [batch_size] is the slice of the last batch
    number. *)
Lemma short_batch_number rows numbers i batch :
  bs_invariant loader batch_size kw rows numbers →
  numbers !! i = Some batch →
  length (bs_batch batch_size rows num_samples batch) ≤ batch_size
  ∧ (length (bs_batch batch_size rows num_samples batch) < batch_size →
     S batch = num_batches).
Proof.
  intros Hinv Hi. pose proof (bs_invariant_length _ _ Hinv) as Hlen.
  destruct Hinv as (_ & Hnumbers & _).
  rewrite <- Hlen, bs_batch_length, Hlen by done.
  split; [lia|]. intros Hshort.
  assert (batch < num_batches).
  { apply list_elem_of_lookup_2 in Hi. rewrite Hnumbers in Hi.
    apply elem_of_seq in Hi. lia. }
  pose proof (number_of_batches_tight batch_size num_samples batch_size_pos).
  assert (0 < num_samples).
  { destruct (loader_samples loader); [done|simpl; lia]. }
  nia.
Qed.
End bucket_facts.

Section epochs.
Context `{RandomSource}.
Variables (loader : TextLoader) (batch_size : nat) (kw : schedule_kwargs).
Hypothesis samples_nonempty : loader_samples loader ≠ [].
Hypothesis batch_size_pos : 0 < batch_size.
Hypothesis fuzzyness_nonzero : fuzzyness kw ≠ 0%Z.

Local Abbreviation num_samples := (length (loader_samples loader)).
Local Abbreviation num_batches := (number_of_batches batch_size num_samples).

Lemma epoch_of_shape rows numbers :
  bs_invariant loader batch_size kw rows numbers →
  epoch_shape loader batch_size kw (epoch_of loader batch_size rows numbers).
Proof.
  intros Hinv. pose proof Hinv as (_ & Hnumbers & Hfixed).
  assert (Hshort : ∀ i batch, epoch_of loader batch_size rows numbers !! i
                              = Some batch →
            length batch ≤ batch_size
            ∧ (length batch < batch_size →
               numbers !! i = Some (num_batches - 1))).
  { intros i batch. unfold epoch_of. rewrite list_lookup_fmap.
    destruct (numbers !! i) as [number|] eqn:Hi; [|done]. intros [= <-].
    destruct (short_batch_number loader batch_size kw samples_nonempty
                batch_size_pos rows numbers i number Hinv Hi) as [Hle Hlast].
    split; [done|]. intros Hlt%Hlast. f_equal. lia. }
  repeat split.
  - unfold epoch_of. by rewrite length_fmap, (Permutation_length Hnumbers),
      length_seq.
  - apply Forall_lookup. intros i batch Hi. by apply Hshort in Hi as [? _].
  - intros i j bi bj Hi Hj Hbi Hbj.
    apply Hshort in Hi as [_ Hi], Hj as [_ Hj].
    eapply NoDup_lookup; [|by apply Hi|by apply Hj].
    rewrite Hnumbers. apply NoDup_seq.
  - intros Hno i batch Hi Hlt. apply Hshort in Hi as [_ Hi].
    specialize (Hi Hlt). rewrite (Hfixed Hno) in Hi.
    apply lookup_seq in Hi as [Hi Hlti].
    unfold epoch_of. rewrite length_fmap, (Hfixed Hno), length_seq. lia.
  - by eapply epoch_of_cover.
Qed.

(** [k] epochs in a row, from the head of the [while] loop. *)
Lemma pulls_epochs k : ∀ st rows numbers g,
  (∀ g, bs_next loader batch_size kw st g
        = bs_loop_head batch_size kw rows num_samples numbers g) →
  bs_invariant loader batch_size kw rows numbers →
  (repeat kw = false → k ≤ 1) →
  ∃ epochs rows' numbers' g',
    pulls (bs_next loader batch_size kw) (k * num_batches) st g
    = (concat epochs,
       Suspended (if decide (k = 0) then st
                  else BsFor rows' num_samples numbers' []), g')
    ∧ length epochs = k
    ∧ Forall (epoch_shape loader batch_size kw) epochs.
Proof.
  induction k as [|k IH]; intros st rows numbers g Hhead Hinv Hrepeat.
  - exists [], rows, numbers, g. by repeat split.
  - destruct (pulls_epoch loader batch_size kw samples_nonempty batch_size_pos
                st rows numbers g (Hhead g) Hinv)
      as (rows1 & numbers1 & g1 & Hfirst & Hinv1).
    replace (S k * num_batches) with (num_batches + k * num_batches) by lia.
    rewrite pulls_add, Hfirst.
    destruct (decide (k = 0)) as [->|Hk].
    + simpl. exists [epoch_of loader batch_size rows1 numbers1],
        rows1, numbers1, g1.
      simpl. rewrite !app_nil_r. repeat split; [|done..].
      * constructor; [|done]. by apply epoch_of_shape.
    + assert (Hrep : repeat kw = true).
      { destruct (repeat kw); [done|]. specialize (Hrepeat eq_refl). lia. }
      destruct (IH (BsFor rows1 num_samples numbers1 []) rows1 numbers1 g1)
        as (epochs & rows2 & numbers2 & g2 & Hrest & Hlen & Hshapes).
      * intros g'. simpl. by rewrite Hrep.
      * done.
      * by rewrite Hrep.
      * rewrite Hrest.
        exists (epoch_of loader batch_size rows1 numbers1 :: epochs),
          rows2, numbers2, g2.
        simpl. repeat split; [by rewrite Hlen|].
        constructor; [|done]. by apply epoch_of_shape.
Qed.

Lemma pulls_epochs_entry k g :
  (repeat kw = false → k ≤ 1) →
  ∃ epochs st g',
    pulls (bs_next loader batch_size kw) (k * num_batches) BsEntry g
    = (concat epochs, Suspended st, g')
    ∧ (0 < k → ∃ rows numbers, st = BsFor rows num_samples numbers [])
    ∧ length epochs = k
    ∧ Forall (epoch_shape loader batch_size kw) epochs.
Proof.
  intros Hrepeat.
  destruct (bs_enter_ok loader batch_size kw samples_nonempty batch_size_pos
              fuzzyness_nonzero) as (rows & numbers & Henter & Hinv).
  destruct (pulls_epochs k BsEntry rows numbers g)
    as (epochs & rows' & numbers' & g' & Hpulls & Hlen & Hshapes);
    [|done..|].
  { intros g'. simpl. by rewrite Henter. }
  eexists _, _, _. split; [exact Hpulls|]. split; [|done].
  intros Hk. rewrite decide_False by lia. by eexists _, _.
Qed.

(** The same [k] epochs, keeping for each of them the index array and the
    order of the batch numbers it is sliced from. *)
Lemma pulls_epochs_slices k : ∀ st rows numbers g,
  (∀ g, bs_next loader batch_size kw st g
        = bs_loop_head batch_size kw rows num_samples numbers g) →
  bs_invariant loader batch_size kw rows numbers →
  (repeat kw = false → k ≤ 1) →
  ∃ epochs st' g',
    pulls (bs_next loader batch_size kw) (k * num_batches) st g
    = (concat epochs, Suspended st', g')
    ∧ length epochs = k
    ∧ Forall (λ epoch,
                ∃ rows numbers,
                  bs_invariant loader batch_size kw rows numbers
                  ∧ epoch = epoch_of loader batch_size rows numbers) epochs.
Proof.
  induction k as [|k IH]; intros st rows numbers g Hhead Hinv Hrepeat.
  - exists [], st, g. by repeat split.
  - destruct (pulls_epoch loader batch_size kw samples_nonempty batch_size_pos
                st rows numbers g (Hhead g) Hinv)
      as (rows1 & numbers1 & g1 & Hfirst & Hinv1).
    replace (S k * num_batches) with (num_batches + k * num_batches) by lia.
    rewrite pulls_add, Hfirst.
    destruct (decide (k = 0)) as [->|Hk].
    + exists [epoch_of loader batch_size rows1 numbers1],
        (BsFor rows1 num_samples numbers1 []), g1.
      simpl. rewrite !app_nil_r. split; [done|]. split; [done|].
      constructor; [|done]. by exists rows1, numbers1.
    + assert (Hrep : repeat kw = true).
      { destruct (repeat kw); [done|]. specialize (Hrepeat eq_refl). lia. }
      destruct (IH (BsFor rows1 num_samples numbers1 []) rows1 numbers1 g1)
        as (epochs & st2 & g2 & Hrest & Hlen & Hslices).
      * intros g'. simpl. by rewrite Hrep.
      * done.
      * by rewrite Hrep.
      * rewrite Hrest.
        exists (epoch_of loader batch_size rows1 numbers1 :: epochs), st2, g2.
        simpl. split; [done|]. split; [by rewrite Hlen|].
        constructor; [|done]. by exists rows1, numbers1.
Qed.

Lemma pulls_epochs_entry_slices k g :
  (repeat kw = false → k ≤ 1) →
  ∃ epochs st g',
    pulls (bs_next loader batch_size kw) (k * num_batches) BsEntry g
    = (concat epochs, Suspended st, g')
    ∧ length epochs = k
    ∧ Forall (λ epoch,
                ∃ rows numbers,
                  bs_invariant loader batch_size kw rows numbers
                  ∧ epoch = epoch_of loader batch_size rows numbers) epochs.
Proof.
  intros Hrepeat.
  destruct (bs_enter_ok loader batch_size kw samples_nonempty batch_size_pos
              fuzzyness_nonzero) as (rows & numbers & Henter & Hinv).
  apply (pulls_epochs_slices k BsEntry rows numbers g); [|done..].
  intros g'. simpl. by rewrite Henter.
Qed.
End epochs.

(** One pass of the schedule without [repeat]: an epoch, then exhaustion. *)
Lemma pulls_one_pass `{RandomSource} loader batch_size kw g extra :
  loader_samples loader ≠ [] → 0 < batch_size →
  fuzzyness kw ≠ 0%Z → repeat kw = false →
  ∃ epoch g',
    pulls (bs_next loader batch_size kw)
          (number_of_batches batch_size (length (loader_samples loader))
           + S extra) BsEntry g
    = (epoch, Exhausted, g')
    ∧ epoch_shape loader batch_size kw epoch.
Proof.
  intros Hne Hsize Hfuzz Hrepeat.
  destruct (pulls_epochs_entry loader batch_size kw Hne Hsize Hfuzz 1 g)
    as (epochs & st & g' & Hpulls & Hst & Hlen & Hshapes); [done|].
  destruct (Hst (le_n 1)) as (rows & numbers & ->).
  destruct epochs as [|epoch [|??]]; try done.
  apply Forall_inv in Hshapes.
  simpl in Hpulls. rewrite app_nil_r, Nat.add_0_r in Hpulls.
  exists epoch, g'. split; [|done].
  rewrite pulls_add, Hpulls. simpl. rewrite Hrepeat. by rewrite app_nil_r.
Qed.

(** C2.  With at least one sample, [batch_size >= 1] and [repeat=False]
    (and a non-zero fuzzyness, without which building the keys divides by
    zero), the generator yields one batch per batch number and is exhausted at
    the next call; concatenated, the batches of that pass are a permutation
    of [0, ..., num_samples-1]: every index occurs exactly once. *)
Theorem bucket_schedule_one_pass `{RandomSource} loader batch_size kw g n :
  1 ≤ length (loader_samples loader) → 1 ≤ batch_size →
  fuzzyness kw ≠ 0%Z → repeat kw = false →
  number_of_batches batch_size (length (loader_samples loader)) < n →
  ∃ batches g',
    pulls (gen_next (bucket_schedule loader batch_size kw)) n
          (gen_init (bucket_schedule loader batch_size kw)) g
    = (batches, Exhausted, g')
    ∧ length batches
      = number_of_batches batch_size (length (loader_samples loader))
    ∧ concat batches ≡ₚ seq 0 (length (loader_samples loader)).
Proof.
  intros Hsamples Hsize Hfuzz Hrepeat Hn. simpl.
  assert (Hne : loader_samples loader ≠ []).
  { intros Hnil. rewrite Hnil in Hsamples. simpl in Hsamples. lia. }
  set (nb := number_of_batches batch_size (length (loader_samples loader))) in *.
  destruct (pulls_one_pass loader batch_size kw g (n - nb - 1)
              Hne Hsize Hfuzz Hrepeat)
    as (epoch & g' & Hpulls & Hlength & _ & _ & _ & Hcover).
  fold nb in Hpulls, Hlength.
  replace (nb + S (n - nb - 1)) with n in Hpulls by lia.
  by exists epoch, g'.
Qed.

Lemma bucket_schedule_one_pass_witness :
  ∃ batches g',
    pulls (gen_next (@bucket_schedule reversing_source three_samples 2 shuffling))
          3 BsEntry () = (batches, Exhausted, g')
    ∧ length batches = 2
    ∧ concat batches ≡ₚ [0; 1; 2].
Proof.
  apply (@bucket_schedule_one_pass reversing_source three_samples 2 shuffling
           () 3); [simpl; lia | lia | done | done | vm_compute; lia].
Defined.

(** C3, as stated, fails with [shuffle=True]: the order in which the slices
    are visited is permuted, so the remainder batch can come first. *)
Lemma shuffled_epoch_counterexample :
  yields (gen_next (@bucket_schedule reversing_source three_samples 2 shuffling))
         2 BsEntry () = [[1]; [0; 2]]
  ∧ ¬ short_batches_last 2 [[1]; [0; 2]].
Proof.
  split; [reflexivity|].
  intros Hlast. specialize (Hlast 0 [1] eq_refl). simpl in Hlast. lia.
Qed.

(** C3, amended.  The first [k * num_batches] calls yield [k] epochs of
    [num_batches] batches each ([k <= 1] unless [repeat]).  In every epoch
    each batch has length at most [batch_size] and at most one batch is
    shorter; without shuffling a shorter batch is the last of its epoch.
    With or without shuffling, the batches of an epoch are the slices of an
    arrangement of the sample indices, visited in the order of a permutation
    of the batch numbers, and a shorter batch is the slice of the last batch
    number, [num_batches - 1], wherever that order puts it. *)
Theorem bucket_schedule_epochs `{RandomSource} loader batch_size kw g k :
  loader_samples loader ≠ [] → 1 ≤ batch_size → fuzzyness kw ≠ 0%Z →
  (repeat kw = false → k ≤ 1) →
  ∃ epochs st g',
    pulls (gen_next (bucket_schedule loader batch_size kw))
          (k * number_of_batches batch_size (length (loader_samples loader)))
          (gen_init (bucket_schedule loader batch_size kw)) g
    = (concat epochs, Suspended st, g')
    ∧ length epochs = k
    ∧ Forall (λ epoch,
        length epoch
        = number_of_batches batch_size (length (loader_samples loader))
        ∧ Forall (λ batch, length batch ≤ batch_size) epoch
        ∧ at_most_one_short batch_size epoch
        ∧ (shuffle kw = false → short_batches_last batch_size epoch)
        ∧ ∃ rows numbers,
            rows.*1 ≡ₚ seq 0 (length (loader_samples loader))
            ∧ numbers
              ≡ₚ seq 0 (number_of_batches batch_size
                          (length (loader_samples loader)))
            ∧ epoch
              = bs_batch batch_size rows (length (loader_samples loader))
                  <$> numbers
            ∧ ∀ i batch,
                epoch !! i = Some batch → length batch < batch_size →
                numbers !! i
                = Some (number_of_batches batch_size
                          (length (loader_samples loader)) - 1)) epochs.
Proof.
  intros Hne Hsize Hfuzz Hrepeat. simpl.
  destruct (pulls_epochs_entry_slices loader batch_size kw Hne Hsize Hfuzz k g
              Hrepeat) as (epochs & st & g' & Hpulls & Hlen & Hslices).
  exists epochs, st, g'. split; [done|]. split; [done|].
  eapply Forall_impl; [exact Hslices|].
  intros epoch (rows & numbers & Hinv & ->).
  destruct (epoch_of_shape loader batch_size kw Hne Hsize rows numbers Hinv)
    as (? & ? & ? & ? & _).
  do 4 (split; [done|]).
  exists rows, numbers. pose proof Hinv as (Hrows & Hnumbers & _).
  do 3 (split; [done|]).
  intros i batch Hi Hshort. unfold epoch_of in Hi.
  rewrite list_lookup_fmap in Hi.
  destruct (numbers !! i) as [number|] eqn:Hnumber; [|done].
  injection Hi as <-.
  destruct (short_batch_number loader batch_size kw Hne Hsize rows numbers i
              number Hinv Hnumber) as [_ Hlast].
  specialize (Hlast Hshort). f_equal. lia.
Qed.

Lemma bucket_schedule_epochs_witness :
  ∃ epochs,
    yields (gen_next (@bucket_schedule identity_source three_samples 2
                        default_kwargs)) 2 BsEntry () = concat epochs
    ∧ Forall (short_batches_last 2) epochs.
Proof.
  destruct (@bucket_schedule_epochs identity_source three_samples 2
              default_kwargs () 1)
    as (epochs & st & g' & Hpulls & _ & Hshapes);
    [done | lia | done | done |].
  exists epochs. split.
  - unfold yields. vm_compute in Hpulls. vm_compute.
    by injection Hpulls as <- _ _.
  - eapply Forall_impl; [exact Hshapes|].
    intros epoch (_ & _ & _ & Hlast & _). by apply Hlast.
Defined.

(** ** The sort key *)

Lemma length_key_linear fuzz (s : sample) :
  length_key fuzz s
  = (Z.of_nat (length s.1) / fuzz * 16384 + Z.of_nat (length s.2) / fuzz)%Z.
Proof. unfold length_key. by rewrite Z.shiftl_mul_pow2. Qed.

(** C7, as stated, fails for long targets: the target quotient is added to
    the shifted source quotient, and from [2^14] on it carries into it.  A
    sample with a source of two characters and a target of 16387 gets a
    larger key than one with a source of three characters and a target of
    two, and is sorted after it. *)
Lemma long_target_counterexample :
  make_sample_indices
    [(replicate 2 "a"%char, replicate (Z.to_nat 16387) "b"%char);
     (replicate 3 "a"%char, replicate 2 "b"%char)] 1
  = Ok [(0, 49155%Z); (1, 49154%Z)]
  ∧ sort_rows [(0, 49155%Z); (1, 49154%Z)]
    = Ok [(1, 49154%Z); (0, 49155%Z)].
Proof. split; by vm_compute. Qed.

(** C7, amended.  For a fuzzyness of at least one, row [i] of the index
    array is [(i, key)] with [key = ((len(x) // f) << 14) + (len(t) // f)].
    Among samples of equal source quotient the key orders by target
    quotient, and a smaller source quotient gives a smaller key as long as
    the target quotient fits the fourteen low bits. *)
Theorem sample_index_key (samples : list sample) (fuzz : Z) i (x t : text) :
  (1 ≤ fuzz)%Z →
  samples !! i = Some (x, t) →
  ∃ rows,
    make_sample_indices samples fuzz = Ok rows
    ∧ rows !! i
      = Some (i, (Z.shiftl (Z.of_nat (length x) / fuzz) 14
                  + Z.of_nat (length t) / fuzz)%Z)
    ∧ ∀ x' t' : text,
        (Z.of_nat (length x) / fuzz = Z.of_nat (length x') / fuzz →
         (length_key fuzz (x, t) < length_key fuzz (x', t')
          ↔ Z.of_nat (length t) / fuzz < Z.of_nat (length t') / fuzz))%Z
        ∧ (Z.of_nat (length x) / fuzz < Z.of_nat (length x') / fuzz →
           Z.of_nat (length t) / fuzz < 2 ^ 14 →
           length_key fuzz (x, t) < length_key fuzz (x', t'))%Z.
Proof.
  intros Hfuzz Hi.
  exists (imap (λ i s, (i, length_key fuzz s)) samples). split; [|split].
  - unfold make_sample_indices. destruct samples; [done|].
    case_decide; [lia|done].
  - by rewrite list_lookup_imap, Hi.
  - intros x' t'. rewrite !length_key_linear. simpl.
    assert (0 ≤ Z.of_nat (length t') / fuzz)%Z
      by (apply Z.div_pos; lia).
    split; [intros ->; lia | lia].
Qed.

Lemma sample_index_key_witness :
  ∃ rows,
    make_sample_indices [(txt "hello", txt "bonjour"); (txt "hi", txt "salut")] 3
    = Ok rows
    ∧ rows !! 1 = Some (1, 1%Z).
Proof.
  destruct (sample_index_key
              [(txt "hello", txt "bonjour"); (txt "hi", txt "salut")] 3 1
              (txt "hi") (txt "salut")) as (rows & Hrows & Hrow & _);
    [lia | reflexivity |].
  exists rows. split; [exact Hrows | exact Hrow].
Defined.

(** ** The warmup-composed schedule *)

Section yields_facts.
Context `{RandomSource} {St : Type}.
Variable next : St → rng → outcome St * rng.

Lemma pulls_S n s g :
  pulls next (S n) s g
  = match next s g with
    | (Yield batch s, g) =>
        let '(batches, e, g) := pulls next n s g in (batch :: batches, e, g)
    | (Stop, g) => ([], Exhausted, g)
    | (Throw e, g) => ([], Raised e, g)
    | (Diverge, g) => ([], Diverged, g)
    end.
Proof. done. Qed.

Lemma yields_S n s g :
  yields next (S n) s g
  = match next s g with
    | (Yield batch s, g) => batch :: yields next n s g
    | _ => []
    end.
Proof.
  unfold yields. simpl.
  destruct (next s g) as [[batch s'| |e|] g']; try done.
  by destruct (pulls next n s' g') as [[??]?].
Qed.
End yields_facts.

Section warmup_facts.
Context `{RandomSource}.
Variables (loader : TextLoader) (batch_size : nat).
Variable warmup_iterations : Z.
Variables warmup_function regular_function : option schedule_function.
Variable kwargs : schedule_kwargs.

Local Abbreviation warm :=
  (ws_warmup_generator loader batch_size warmup_function).
Local Abbreviation regular :=
  (ws_regular_generator loader batch_size regular_function kwargs).
Local Abbreviation composed :=
  (warmup_schedule loader batch_size warmup_iterations warmup_function
                   regular_function kwargs).
Local Abbreviation Regular :=
  (WsRegular loader batch_size warmup_function regular_function kwargs).
Local Abbreviation Warmup :=
  (WsWarmup loader batch_size warmup_function regular_function kwargs).

(** In the second loop the composed generator yields what the regular
    generator yields. *)
Lemma yields_regular n s g :
  yields (gen_next composed) n (Regular s) g
  = yields (gen_next regular) n s g.
Proof.
  revert s g. induction n as [|n IH]; intros s g; [done|].
  rewrite !yields_S. simpl. unfold ws_regular.
  destruct (gen_next regular s g) as [[batch s'| |e|] g']; try done.
  f_equal. apply IH.
Qed.

(** Leaving the first loop, by exhaustion or by [break], starts the
    regular generator. *)
Lemma yields_handover n st g g' :
  gen_next composed st g
  = ws_regular loader batch_size warmup_function regular_function kwargs
      (gen_init regular) g' →
  yields (gen_next composed) n st g
  = yields (gen_next regular) n (gen_init regular) g'.
Proof.
  intros Hnext. destruct n as [|n]; [done|].
  rewrite !yields_S, Hnext. unfold ws_regular.
  destruct (gen_next regular (gen_init regular) g') as [[batch s'| |e|] g''];
    try done.
  f_equal. apply yields_regular.
Qed.

(** The first loop, with [remaining] iterations to go before the counter
    reaches [warmup_iterations]. *)
Lemma yields_warmup remaining : ∀ i s g batches e g1,
  (Z.of_nat i + Z.of_nat remaining - warmup_iterations = 0)%Z →
  pulls (gen_next warm) (S remaining) s g = (batches, e, g1) →
  e = Exhausted ∨ (∃ s', e = Suspended s') →
  ∀ n,
    yields (gen_next composed) (length (take remaining batches) + n)
           (Warmup i s) g
    = take remaining batches
      ++ yields (gen_next regular) n (gen_init regular) g1.
Proof.
  induction remaining as [|remaining IH];
    intros i s g batches e g1 Hi Hpulls He n.
  - rewrite take_0. simpl in *.
    apply yields_handover. simpl.
    destruct (gen_next warm s g) as [[batch s'| |e'|] g'];
      simplify_eq; try (by destruct He as [?|[??]]).
    rewrite decide_True by lia. done.
  - rewrite pulls_S in Hpulls.
    destruct (gen_next warm s g) as [[batch s'| |e'|] g'] eqn:Hnext;
      simplify_eq; try (by destruct He as [?|[??]]).
    + destruct (pulls (gen_next warm) (S remaining) s' g')
        as [[batches' e'] g1'] eqn:Hrest. simplify_eq.
      simpl. rewrite yields_S. simpl. rewrite Hnext.
      rewrite decide_False by lia. f_equal.
      apply (IH (S i) s' g' batches' e g1); [lia|done..].
    + simpl. apply yields_handover. simpl. by rewrite Hnext.
Qed.
End warmup_facts.

(** C5.  With a non-negative [warmup_iterations], the composed schedule
    first yields the batches of the warmup function driven with
    [shuffle=False, repeat=False, fuzzyness=1, sort=True], at most
    [warmup_iterations] of them and fewer when that generator is exhausted
    first, and then every batch of the regular function driven with the
    caller's keyword arguments.  With the default warmup function,
    [warmup_iterations = 2], ten samples and [batch_size = 5], the warmup
    generator has exactly two batches, which are yielded before the regular
    phase begins. *)
Theorem warmup_schedule_phases `{RandomSource} loader batch_size
    warmup_iterations (warmup_function regular_function : option schedule_function)
    kwargs g :
  (0 ≤ warmup_iterations)%Z →
  let warm :=
    default bucket_schedule warmup_function loader batch_size
      {| shuffle := false; repeat := false; fuzzyness := 1; sort := true |} in
  let regular :=
    default bucket_schedule regular_function loader batch_size kwargs in
  let composed :=
    warmup_schedule loader batch_size warmup_iterations warmup_function
                    regular_function kwargs in
  (∀ batches e g1,
     pulls (gen_next warm) (S (Z.to_nat warmup_iterations)) (gen_init warm) g
     = (batches, e, g1) →
     e = Exhausted ∨ (∃ s, e = Suspended s) →
     let warmup_batches := take (Z.to_nat warmup_iterations) batches in
     (Z.of_nat (length warmup_batches) ≤ warmup_iterations)%Z
     ∧ ∀ n,
         yields (gen_next composed) (length warmup_batches + n)
                (gen_init composed) g
         = warmup_batches
           ++ yields (gen_next regular) n (gen_init regular) g1)
  ∧ (warmup_function = None → warmup_iterations = 2%Z → batch_size = 5 →
     length (loader_samples loader) = 10 →
     ∃ first second g1,
       pulls (gen_next warm) 3 (gen_init warm) g
       = ([first; second], Exhausted, g1)
       ∧ ∀ n,
           yields (gen_next composed) (2 + n) (gen_init composed) g
           = [first; second]
             ++ yields (gen_next regular) n (gen_init regular) g1).
Proof.
  intros Hiter warm regular composed.
  assert (Hgeneral : ∀ batches e g1,
     pulls (gen_next warm) (S (Z.to_nat warmup_iterations)) (gen_init warm) g
     = (batches, e, g1) →
     e = Exhausted ∨ (∃ s, e = Suspended s) →
     ∀ n,
       yields (gen_next composed)
              (length (take (Z.to_nat warmup_iterations) batches) + n)
              (gen_init composed) g
       = take (Z.to_nat warmup_iterations) batches
         ++ yields (gen_next regular) n (gen_init regular) g1).
  { intros batches e g1 Hpulls He n.
    apply (yields_warmup loader batch_size warmup_iterations warmup_function
             regular_function kwargs (Z.to_nat warmup_iterations) 0
             (gen_init warm) g batches e g1); [lia|done..]. }
  split.
  - intros batches e g1 Hpulls He warmup_batches. split.
    + unfold warmup_batches. rewrite length_take. lia.
    + by eapply Hgeneral.
  - intros -> -> -> Hten.
    assert (Hne : loader_samples loader ≠ []).
    { intros Hnil. by rewrite Hnil in Hten. }
    destruct (pulls_one_pass loader 5 warmup_kwargs g 0 Hne)
      as (batches & g1 & Hpulls & Hlen & _); [lia|done|done|].
    rewrite Hten in Hpulls, Hlen.
    change (number_of_batches 5 10) with 2 in Hpulls, Hlen.
    destruct batches as [|first [|second [|??]]]; try done.
    exists first, second, g1. split; [exact Hpulls|].
    intros n. by apply (Hgeneral [first; second] Exhausted g1 Hpulls); left.
Qed.

Lemma warmup_schedule_phases_witness :
  yields (gen_next (@warmup_schedule identity_source ten_samples 5 2
                      None None default_kwargs))
         3 (gen_init (@warmup_schedule identity_source ten_samples 5 2
                        None None default_kwargs)) ()
  = [[9; 8; 7; 6; 5]; [4; 3; 2; 1; 0]; [0; 1; 2; 3; 4]].
Proof.
  destruct (@warmup_schedule_phases identity_source ten_samples 5 2
              None None default_kwargs ()) as [_ Hscenario]; [lia|].
  destruct Hscenario as (first & second & g1 & Hpulls & Hyields); [done..|].
  etrans; [exact (Hyields 1)|].
  vm_compute in Hpulls. injection Hpulls as <- <- <-.
  reflexivity.
Defined.

(** ** Arrays *)

Lemma chunks_length {A} n m (l : list A) : length (chunks n m l) = n.
Proof. revert l. induction n as [|n IH]; intros l; simpl; [done|]. by rewrite IH. Qed.

Lemma chunks_row_length {A} n m (l : list A) :
  n * m ≤ length l → Forall (λ row, length row = m) (chunks n m l).
Proof.
  revert l. induction n as [|n IH]; intros l Hl; simpl; constructor.
  - rewrite length_take. lia.
  - apply IH. rewrite length_drop. lia.
Qed.

Lemma chunks_concat {A} n m (rows : list (list A)) :
  length rows = n → Forall (λ row, length row = m) rows →
  chunks n m (concat rows) = rows.
Proof.
  intros <- Hrows. induction Hrows as [|row rows Hrow _ IH]; simpl; [done|].
  rewrite take_app_length' by done. rewrite drop_app_length' by done.
  by rewrite IH.
Qed.

Lemma concat_chunks {A} n m (l : list A) :
  length l = n * m → concat (chunks n m l) = l.
Proof.
  revert l. induction n as [|n IH]; intros l Hl; simpl.
  - by destruct l.
  - rewrite IH by (rewrite length_drop; lia). apply take_drop.
Qed.

Lemma chunks_lookup {A} n m (l : list A) i :
  i < n → chunks n m l !! i = Some (take m (drop (i * m) l)).
Proof.
  revert l i. induction n as [|n IH]; intros l i Hi; [lia|].
  destruct i as [|i]; simpl; [done|].
  rewrite IH by lia. by rewrite drop_drop, (Nat.add_comm m).
Qed.

Lemma prod_list_snoc ns n : prod_list (ns ++ [n]) = prod_list ns * n.
Proof. induction ns as [|d ns IH]; simpl; [lia|]. rewrite IH. lia. Qed.

Lemma array_rows_expand_dims a :
  shape a ≠ [] → array_rows (np_expand_dims_last a) = array_rows a.
Proof.
  unfold array_rows, np_expand_dims_last. simpl.
  destruct (shape a) as [|n inner]; [done|]. intros _. simpl.
  by rewrite prod_list_snoc, Nat.mul_1_r.
Qed.

Lemma ravel_expand_dims dims : ∀ index acc,
  ravel (dims ++ [1]) (index ++ [0]) acc = ravel dims index acc.
Proof.
  induction dims as [|d dims IH]; intros [|i index] acc; simpl.
  - f_equal. lia.
  - case_decide; [|done]. by destruct index.
  - case_decide; [|done]. by destruct dims.
  - case_decide; [|done]. apply IH.
Qed.

Lemma item_expand_dims a index :
  item (np_expand_dims_last a) (index ++ [0]) = item a index.
Proof. unfold item. simpl. by rewrite ravel_expand_dims. Qed.

Lemma np_zeros_2d n m :
  (0 ≤ m)%Z →
  np_zeros [Z.of_nat n; m]
  = Ok {| shape := [n; Z.to_nat m]; data := replicate (n * Z.to_nat m) 0%Z |}.
Proof.
  intros Hm. unfold np_zeros. rewrite decide_True.
  - simpl. by rewrite Nat2Z.id, Nat.mul_1_r.
  - repeat constructor; lia.
Qed.

Lemma np_zeros_2d_inv n m a :
  np_zeros [Z.of_nat n; m] = Ok a →
  (0 ≤ m)%Z ∧ a = {| shape := [n; Z.to_nat m];
                     data := replicate (n * Z.to_nat m) 0%Z |}.
Proof.
  intros Hz. destruct (decide (0 ≤ m)%Z) as [Hm|Hm].
  - split; [done|]. rewrite np_zeros_2d in Hz by done. by injection Hz.
  - unfold np_zeros in Hz. rewrite decide_False in Hz; [done|].
    intros Hall. apply Forall_cons in Hall as [_ Hall].
    by apply Forall_inv in Hall.
Qed.

(** Assigning to a row keeps the shape and the size of the buffer. *)
Lemma assign_row_prefix_shape a i k values a' n m :
  shape a = [n; m] → length (data a) = n * m →
  assign_row_prefix a i k values = Ok a' →
  shape a' = [n; m] ∧ length (data a') = n * m.
Proof.
  intros Hshape Hdata. unfold assign_row_prefix. rewrite Hshape.
  case_decide; [|done].
  assert (Hw : slice_width m k ≤ m).
  { unfold slice_width. case_decide; lia. }
  assert (Hlen : ∀ vs : list Z, length vs = slice_width m k →
            length (take (i * m) (data a) ++ vs
                    ++ drop (i * m + slice_width m k) (data a)) = n * m).
  { intros vs Hvs. rewrite !length_app, length_take, length_drop, Hvs. nia. }
  case_decide.
  - simpl. intros [= <-]. simpl. split; [done|]. by apply Hlen.
  - destruct values as [|v [|??]]; simpl; try done.
    intros [= <-]. simpl. split; [done|]. apply Hlen. by rewrite length_replicate.
Qed.

Lemma assign_row_prefix_ok a i k values n m :
  shape a = [n; m] → i < n → length values = slice_width m k →
  ∃ a', assign_row_prefix a i k values = Ok a'.
Proof.
  intros Hshape Hi Hvalues. unfold assign_row_prefix. rewrite Hshape.
  rewrite decide_True by done. rewrite decide_True by done. simpl. by eexists.
Qed.

Section make_array_facts.
Variable self : TextBatchGenerator.

Lemma fill_rows_shape function max_len rows : ∀ a a' n m,
  shape a = [n; m] → length (data a) = n * m →
  fill_rows a max_len function rows = Ok a' →
  shape a' = [n; m] ∧ length (data a') = n * m.
Proof.
  induction rows as [|[sample_idx seq] rows IH]; intros a a' n m Hs Hd; simpl.
  - by intros [= <-].
  - destruct (assign_row_prefix a sample_idx _ _) as [a1|e] eqn:Ha; [|done].
    simpl. destruct (assign_row_prefix_shape _ _ _ _ _ _ _ Hs Hd Ha).
    by apply IH.
Qed.

Lemma fill_rows_ok function max_len rows : ∀ a n,
  (0 ≤ max_len)%Z →
  shape a = [n; Z.to_nat max_len] → length (data a) = n * Z.to_nat max_len →
  Forall (λ row, row.1 < n) rows →
  ∃ a', fill_rows a max_len function rows = Ok a'.
Proof.
  intros a n Hmax. revert a.
  induction rows as [|[sample_idx seq] rows IH]; intros a Hs Hd Hrows; simpl.
  - by eexists.
  - apply Forall_cons in Hrows as [Hidx Hrows]. simpl in Hidx.
    destruct (assign_row_prefix_ok a sample_idx
                (Z.min max_len (Z.of_nat (length (function seq))))
                (slice_to (function seq) max_len) n (Z.to_nat max_len))
      as [a1 Ha]; [done..| |].
    + rewrite slice_to_length. unfold slice_width.
      rewrite !decide_True by lia. lia.
    + rewrite Ha. simpl.
      destruct (assign_row_prefix_shape _ _ _ _ _ _ _ Hs Hd Ha).
      by apply IH.
Qed.

Lemma make_array_inv sequences function max_len a :
  _make_array self sequences function max_len = Ok a →
  ∃ width,
    chosen_width self sequences max_len = Ok width ∧ (0 ≤ width)%Z
    ∧ shape a = [latest_batch_size self; Z.to_nat width]
    ∧ well_formed a.
Proof.
  unfold _make_array. fold (chosen_width self sequences max_len).
  destruct (chosen_width self sequences max_len) as [width|e]; [|done]. simpl.
  destruct (np_zeros _) as [zeros|e] eqn:Hz; [|done]. simpl.
  apply np_zeros_2d_inv in Hz as [Hwidth ->]. intros Hfill.
  apply fill_rows_shape with (n := latest_batch_size self)
                             (m := Z.to_nat width) in Hfill
    as [Hshape Hdata]; [|done|simpl; by rewrite length_replicate].
  exists width. repeat split; try done.
  unfold well_formed. rewrite Hshape, Hdata. simpl. lia.
Qed.

Lemma make_array_ok sequences function max_len width :
  chosen_width self sequences max_len = Ok width → (0 ≤ width)%Z →
  length sequences ≤ latest_batch_size self →
  ∃ a, _make_array self sequences function max_len = Ok a.
Proof.
  intros Hwidth Hpos Hlen.
  unfold _make_array. fold (chosen_width self sequences max_len).
  rewrite Hwidth. simpl. rewrite np_zeros_2d by done. simpl.
  eapply fill_rows_ok; [done..|simpl; by rewrite length_replicate|].
  apply Forall_lookup. intros i [j seq] Hi.
  apply list_lookup_imap_Some in Hi as (? & Hi & [= -> ->]).
  apply lookup_lt_Some in Hi. simpl. lia.
Qed.

Lemma chosen_width_longest sequences max_len :
  use_dynamic_array_sizes self || not_given max_len = true →
  sequences ≠ [] →
  chosen_width self sequences max_len
  = Ok (Z.of_nat (max_list (length <$> sequences))).
Proof.
  intros Hdyn Hne. unfold chosen_width. rewrite Hdyn.
  by destruct sequences.
Qed.

Lemma chosen_width_longest_inv sequences max_len width :
  use_dynamic_array_sizes self || not_given max_len = true →
  chosen_width self sequences max_len = Ok width →
  width = Z.of_nat (max_list (length <$> sequences)).
Proof.
  intros Hdyn. unfold chosen_width. rewrite Hdyn.
  destruct sequences; [done|]. simpl. by intros [= <-].
Qed.
End make_array_facts.

Lemma chunks_replicate_1 {A} n (v : A) :
  chunks n 1 (replicate n v) = replicate n [v].
Proof. induction n as [|n IH]; simpl; [done|]. by rewrite drop_0, IH. Qed.

Lemma zip_with_app_replicate {A} n (prefix : list A) (rows : list (list A)) :
  length rows = n →
  zip_with app (replicate n prefix) rows = (app prefix) <$> rows.
Proof.
  intros <-. induction rows as [|row rows IH]; simpl; [done|]. by rewrite IH.
Qed.

Section batch_facts.
Variable self : TextBatchGenerator.

(** The rows of the shifted array: the start-of-sequence id, then the row
    without its last entry. *)
Lemma add_sos_rows a go m :
  shape a = [latest_batch_size self; m] → well_formed a →
  _add_sos self a = Ok go →
  shape go = [latest_batch_size self; 1 + (m - 1)]
  ∧ array_rows go
    = (λ row, sos_id (alphabet self) :: removelast row) <$> array_rows a.
Proof.
  intros Hshape Hwf. unfold well_formed in Hwf. rewrite Hshape in Hwf.
  simpl in Hwf. rewrite Nat.mul_1_r in Hwf.
  unfold _add_sos, drop_last_column. rewrite Hshape. simpl.
  unfold np_concatenate1. simpl. rewrite decide_True by done.
  intros [= <-]. split; [done|].
  set (n := latest_batch_size self) in *.
  assert (Hrows : array_rows a = chunks n m (data a)).
  { unfold array_rows. rewrite Hshape. simpl. by rewrite Nat.mul_1_r. }
  assert (Hall : Forall (λ row, length row = m) (array_rows a)).
  { rewrite Hrows. apply chunks_row_length. lia. }
  assert (Hn : length (array_rows a) = n).
  { rewrite Hrows. apply chunks_length. }
  unfold array_rows at 1. simpl.
  unfold array_rows at 1. simpl.
  unfold array_rows at 1. simpl.
  rewrite !Nat.mul_1_r, chunks_replicate_1.
  rewrite (chunks_concat n (m - 1)).
  - rewrite zip_with_app_replicate by (by rewrite length_fmap).
    rewrite <- list_fmap_compose.
    rewrite chunks_concat.
    + apply Forall_fmap_ext. eapply Forall_impl; [exact Hall|].
      intros row Hrow. simpl in *. f_equal.
      rewrite removelast_firstn_len, Hrow. f_equal. lia.
    + by rewrite !length_fmap.
    + rewrite Forall_fmap. eapply Forall_impl; [exact Hall|].
      intros row Hrow. simpl in *. rewrite length_take. lia.
  - by rewrite length_fmap.
  - rewrite Forall_fmap. eapply Forall_impl; [exact Hall|].
    intros row Hrow. simpl in *. rewrite length_take. lia.
Qed.

(** What [plain_batch] computes, step by step. *)
Lemma plain_batch_inv batch :
  plain_batch self = Ok batch →
  ∃ x_encoded t_encoded t_encoded_go x_spaces t_mask,
    samples self ≠ []
    ∧ _make_array self (samples self).*1 (encode (alphabet self))
        (Some (seq_len self)) = Ok x_encoded
    ∧ _make_array self (samples self).*2 (encode (alphabet self))
        (Some (seq_len self)) = Ok t_encoded
    ∧ _add_sos self t_encoded = Ok t_encoded_go
    ∧ _make_array self (samples self).*1 (_spaces self)
        (Some (seq_len self / 4)%Z) = Ok x_spaces
    ∧ _make_array self (samples self).*2 (_mask self)
        (Some (seq_len self)) = Ok t_mask
    ∧ batch !! "x_encoded" = Some x_encoded
    ∧ batch !! "t_encoded" = Some t_encoded
    ∧ batch !! "t_encoded_go" = Some t_encoded_go
    ∧ batch !! "x_spaces" = Some x_spaces
    ∧ batch !! "t_mask" = Some t_mask.
Proof.
  unfold plain_batch.
  assert (Hunzip : samples self ≠ [] →
            unzip_samples self = Ok ((samples self).*1, (samples self).*2)).
  { unfold unzip_samples. by destruct (samples self). }
  destruct (decide (samples self = [])) as [Hnil|Hsamples].
  { unfold unzip_samples. by rewrite Hnil. }
  rewrite Hunzip by done. cbn [mbind result_bind].
  destruct (_make_array self (samples self).*1 (encode (alphabet self))
              (Some (seq_len self))) as [x_encoded|?]; [|done].
  cbn [mbind result_bind].
  destruct (_make_array self (samples self).*2 (encode (alphabet self))
              (Some (seq_len self))) as [t_encoded|?]; [|done].
  cbn [mbind result_bind].
  destruct (_add_sos self t_encoded) as [t_encoded_go|?] eqn:Hgo; [|done].
  cbn [mbind result_bind].
  destruct (_make_array self (samples self).*1 (_spaces self)
              (Some (seq_len self / 4)%Z)) as [x_spaces|?]; [|done].
  cbn [mbind result_bind].
  destruct (_make_array self (samples self).*2 (_mask self)
              (Some (seq_len self))) as [t_mask|?]; [|done].
  cbn [mbind result_bind].
  intros [= <-].
  exists x_encoded, t_encoded, t_encoded_go, x_spaces, t_mask.
  split; [done|].
  repeat split; try done; by simplify_map_eq.
Qed.

(** A batch is returned only without [add_feature_dim], so that what is
    applied to its arrays below is the identity. *)
Lemma make_batch_lookup batch plain key :
  plain_batch self = Ok plain → _make_batch self = Ok batch →
  batch !! key
  = (if add_feature_dim self then np_expand_dims_last else id)
    <$> plain !! key.
Proof.
  unfold _make_batch. intros ->.
  destruct (add_feature_dim self); [done|].
  intros [= <-]. by destruct (plain !! key).
Qed.

Lemma make_batch_plain batch :
  _make_batch self = Ok batch → ∃ plain, plain_batch self = Ok plain.
Proof.
  unfold _make_batch. destruct (plain_batch self); [by eexists|done].
Qed.
End batch_facts.

(** ** The batch generator *)

(** C4.  In every batch [_make_batch] produces, row [i] of [t_encoded_go]
    starts with the start-of-sequence id and continues with row [i] of
    [t_encoded] without its last entry. *)
Theorem shifted_target_rows self batch :
  _make_batch self = Ok batch →
  ∃ t_encoded t_encoded_go,
    batch !! "t_encoded" = Some t_encoded
    ∧ batch !! "t_encoded_go" = Some t_encoded_go
    ∧ ∀ i, i < latest_batch_size self →
        ∃ row row_go,
          array_rows t_encoded !! i = Some row
          ∧ array_rows t_encoded_go !! i = Some row_go
          ∧ head row_go = Some (sos_id (alphabet self))
          ∧ tail row_go = removelast row.
Proof.
  intros Hbatch.
  destruct (make_batch_plain self batch Hbatch) as [plain Hplain].
  destruct (plain_batch_inv self plain Hplain)
    as (x_encoded & t_encoded & t_encoded_go & x_spaces & t_mask & _ & _
        & Ht & Hgo & _ & _ & _ & Hlt & Hlgo & _).
  apply make_array_inv in Ht as (width & _ & _ & Hshape & Hwf).
  destruct (add_sos_rows self t_encoded t_encoded_go _ Hshape Hwf Hgo)
    as [Hshape_go Hrows].
  set (expand := if add_feature_dim self then np_expand_dims_last else id).
  assert (Hexpand : ∀ a, shape a ≠ [] → array_rows (expand a) = array_rows a).
  { intros a Ha. unfold expand. destruct (add_feature_dim self); [|done].
    by apply array_rows_expand_dims. }
  exists (expand t_encoded), (expand t_encoded_go).
  rewrite !(make_batch_lookup self batch plain) by done.
  rewrite Hlt, Hlgo. do 2 (split; [done|]).
  intros i Hi.
  rewrite !Hexpand by (by rewrite ?Hshape, ?Hshape_go).
  rewrite Hrows, list_lookup_fmap.
  assert (Hrow : is_Some (array_rows t_encoded !! i)).
  { apply lookup_lt_is_Some. unfold array_rows. rewrite Hshape.
    by rewrite chunks_length. }
  destruct Hrow as [row Hrow]. rewrite Hrow.
  by exists row, (sos_id (alphabet self) :: removelast row).
Qed.

Lemma shifted_target_rows_witness :
  ∃ batch t_encoded_go,
    _make_batch greeting = Ok batch
    ∧ batch !! "t_encoded_go" = Some t_encoded_go
    ∧ head <$> array_rows t_encoded_go = [Some 7%Z].
Proof.
  destruct (_make_batch greeting) as [batch|] eqn:Hbatch; [|done].
  destruct (shifted_target_rows greeting batch Hbatch)
    as (t_encoded & t_encoded_go & _ & Hgo & Hrows).
  exists batch, t_encoded_go. split; [done|]. split; [done|].
  vm_compute in Hbatch. injection Hbatch as <-.
  vm_compute in Hgo. injection Hgo as <-. reflexivity.
Defined.

(** C6.  With dynamic sizes the width of an array is the length of the
    longest sequence handed to [_make_array], not of the longest processed
    one, so that the entry the per-field function adds for the
    end-of-sequence character does not fit.  For the target "salut" the
    encoding and the mask have six entries and [t_len] says six, but
    [t_encoded] and [t_mask] have five columns: the end-of-sequence id and
    its mask entry are cut.  With fixed sizes the same sample keeps them. *)
Theorem dynamic_width_cuts_end_of_sequence :
  encode ascii_alphabet (txt "salut") = [115; 97; 108; 117; 116; 42]%Z
  ∧ _mask (with_dynamic_sizes true greeting) (txt "salut")
    = [1; 1; 1; 1; 1; 1]%Z
  ∧ (∃ batch,
       _make_batch (with_dynamic_sizes true greeting) = Ok batch
       ∧ batch !! "t_encoded"
         = Some {| shape := [1; 5]; data := [115; 97; 108; 117; 116]%Z |}
       ∧ batch !! "t_mask"
         = Some {| shape := [1; 5]; data := [1; 1; 1; 1; 1]%Z |}
       ∧ batch !! "t_len" = Some {| shape := [1]; data := [6%Z] |})
  ∧ (∃ batch,
       _make_batch greeting = Ok batch
       ∧ batch !! "t_encoded"
         = Some {| shape := [1; 10];
                   data := [115; 97; 108; 117; 116; 42; 0; 0; 0; 0]%Z |}
       ∧ batch !! "t_mask"
         = Some {| shape := [1; 10];
                   data := [1; 1; 1; 1; 1; 1; 0; 0; 0; 0]%Z |}
       ∧ batch !! "t_len" = Some {| shape := [1]; data := [6%Z] |}).
Proof.
  split; [reflexivity|]. split; [reflexivity|]. split.
  - destruct (_make_batch (with_dynamic_sizes true greeting)) as [batch|]
      eqn:Hbatch; [|done].
    exists batch. split; [done|].
    vm_compute in Hbatch. injection Hbatch as <-. by vm_compute.
  - destruct (_make_batch greeting) as [batch|] eqn:Hbatch; [|done].
    exists batch. split; [done|].
    vm_compute in Hbatch. injection Hbatch as <-. by vm_compute.
Qed.

Lemma plain_batch_feature_dim b self :
  plain_batch (with_feature_dim b self) = plain_batch self.
Proof. done. Qed.

(** C8.  [add_feature_dim] cannot be used: once the arrays are built, the
    loop that is to give each of them a trailing axis starts with
    [batch.iteritems()], which raises [AttributeError].  No batch is
    returned, where the same generator without the flag returns one. *)
Theorem feature_dim_attribute_error self :
  add_feature_dim self = true →
  (∀ batch, _make_batch self ≠ Ok batch)
  ∧ (∀ plain,
       _make_batch (with_feature_dim false self) = Ok plain →
       _make_batch self = Raise AttributeError).
Proof.
  intros Hflag. split.
  - intros batch. unfold _make_batch. rewrite Hflag.
    by destruct (plain_batch self).
  - intros plain. unfold _make_batch.
    rewrite plain_batch_feature_dim, Hflag. simpl.
    by destruct (plain_batch self).
Qed.

Lemma feature_dim_attribute_error_witness :
  _make_batch (with_feature_dim true greeting) = Raise AttributeError
  ∧ ∃ plain, _make_batch greeting = Ok plain.
Proof.
  destruct (_make_batch greeting) as [plain|] eqn:Hplain; [|done].
  split; [|by exists plain].
  destruct (feature_dim_attribute_error (with_feature_dim true greeting)
              eq_refl) as [_ Hraise].
  by apply (Hraise plain).
Defined.

(** C10.  Whenever [max_len] is omitted or zero, whatever
    [use_dynamic_array_sizes], the second axis of the array has the length of
    the longest sequence as handed to [_make_array]; and in every batch
    built with [seq_len < 4] that is the width of [x_spaces]. *)
Theorem omitted_max_len_uses_longest_raw self :
  (∀ sequences function max_len,
     max_len = None ∨ max_len = Some 0%Z →
     sequences ≠ [] → length sequences ≤ latest_batch_size self →
     ∃ array,
       _make_array self sequences function max_len = Ok array
       ∧ shape array
         = [latest_batch_size self; max_list (length <$> sequences)])
  ∧ (∀ batch,
       (seq_len self < 4)%Z → _make_batch self = Ok batch →
       ∃ x_spaces,
         batch !! "x_spaces" = Some x_spaces
         ∧ shape x_spaces !! 1
           = Some (max_list (length <$> (samples self).*1))).
Proof.
  split.
  - intros sequences function max_len Hmax Hne Hlen.
    assert (Hnot : use_dynamic_array_sizes self || not_given max_len = true).
    { destruct Hmax as [-> | ->]; apply orb_true_r. }
    destruct (make_array_ok self sequences function max_len
                (Z.of_nat (max_list (length <$> sequences))))
      as [array Harray]; [by apply chosen_width_longest|lia|done|].
    exists array. split; [done|].
    apply make_array_inv in Harray as (width & Hwidth & _ & Hshape & _).
    apply chosen_width_longest_inv in Hwidth as ->; [|done].
    by rewrite Hshape, Nat2Z.id.
  - intros batch Hlen Hbatch.
    destruct (make_batch_plain self batch Hbatch) as [plain Hplain].
    destruct (plain_batch_inv self plain Hplain)
      as (x_encoded & t_encoded & t_encoded_go & x_spaces & t_mask & _ & _
          & _ & _ & Hs & _ & _ & _ & _ & Hls & _).
    apply make_array_inv in Hs as (width & Hwidth & Hpos & Hshape & _).
    assert (width = Z.of_nat (max_list (length <$> (samples self).*1)))
      as ->.
    { destruct (use_dynamic_array_sizes self
                || not_given (Some (seq_len self / 4)%Z)) eqn:Hnot.
      - by apply chosen_width_longest_inv in Hwidth.
      - unfold chosen_width in Hwidth. rewrite Hnot in Hwidth.
        simpl in Hwidth. injection Hwidth as <-.
        apply orb_false_elim in Hnot as [_ Hzero]. simpl in Hzero.
        apply bool_decide_eq_false in Hzero.
        assert (seq_len self / 4 < 1)%Z
          by (apply Z.div_lt_upper_bound; lia).
        lia. }
    rewrite (make_batch_lookup self batch plain) by done.
    rewrite Hls. eexists. split; [done|].
    destruct (add_feature_dim self); simpl; by rewrite Hshape, Nat2Z.id.
Qed.

Lemma omitted_max_len_uses_longest_raw_witness :
  ∃ batch x_spaces,
    _make_batch (with_seq_len 3 greeting) = Ok batch
    ∧ use_dynamic_array_sizes (with_seq_len 3 greeting) = false
    ∧ batch !! "x_spaces" = Some x_spaces
    ∧ shape x_spaces = [1; 8].
Proof.
  destruct (_make_batch (with_seq_len 3 greeting)) as [batch|] eqn:Hbatch;
    [|done].
  destruct (omitted_max_len_uses_longest_raw (with_seq_len 3 greeting))
    as [_ Hspaces].
  destruct (Hspaces batch) as (x_spaces & Hlookup & Hwidth); [done..|].
  exists batch, x_spaces. repeat split; [done|].
  vm_compute in Hbatch. injection Hbatch as <-.
  vm_compute in Hlookup. by injection Hlookup as <-.
Defined.


(** * Further properties *)

(** ** Rows of the arrays *)

Lemma concat_take_uniform {A} m (rows : list (list A)) i :
  Forall (λ row, length row = m) rows →
  take (i * m) (concat rows) = concat (take i rows).
Proof.
  intros Hrows. revert i.
  induction Hrows as [|row rows Hrow _ IH]; intros [|i]; simpl; try done.
  - by rewrite take_nil.
  - rewrite take_app_add' by done. by rewrite IH.
Qed.

Lemma concat_drop_uniform {A} m (rows : list (list A)) i :
  Forall (λ row, length row = m) rows →
  drop (i * m) (concat rows) = concat (drop i rows).
Proof.
  intros Hrows. revert i.
  induction Hrows as [|row rows Hrow _ IH]; intros [|i]; simpl; try done.
  - by rewrite drop_nil.
  - rewrite drop_app_add' by done. by rewrite IH.
Qed.

Lemma array_rows_2d a n m :
  shape a = [n; m] → array_rows a = chunks n m (data a).
Proof.
  intros Hshape. unfold array_rows. rewrite Hshape. simpl.
  by rewrite Nat.mul_1_r.
Qed.

(** Assigning to the head of row [i] replaces that head and nothing else. *)
Lemma assign_row_prefix_rows a i k values a' n m :
  shape a = [n; m] → length (data a) = n * m →
  length values = slice_width m k →
  assign_row_prefix a i k values = Ok a' →
  ∃ row,
    array_rows a !! i = Some row
    ∧ array_rows a' = <[i := values ++ drop (length values) row]> (array_rows a).
Proof.
  intros Hshape Hdata Hvalues Hassign.
  pose proof (assign_row_prefix_shape _ _ _ _ _ _ _ Hshape Hdata Hassign)
    as [Hshape' Hdata'].
  unfold assign_row_prefix in Hassign. rewrite Hshape in Hassign.
  case_decide as Hi; [|done].
  rewrite decide_True in Hassign by done. simpl in Hassign.
  injection Hassign as <-.
  rewrite (array_rows_2d a n m) by done.
  rewrite (array_rows_2d {| shape := [n; m]; data := _ |} n m) by done.
  simpl.
  set (rows := chunks n m (data a)).
  assert (Hall : Forall (λ row, length row = m) rows).
  { apply chunks_row_length. lia. }
  assert (Hn : length rows = n) by apply chunks_length.
  assert (Hconcat : data a = concat rows).
  { symmetry. by apply concat_chunks. }
  assert (Hrow : is_Some (rows !! i)).
  { apply lookup_lt_is_Some. lia. }
  destruct Hrow as [row Hrow]. exists row. split; [done|].
  assert (Hlen : length row = m).
  { eapply Forall_lookup_1 in Hall; [|exact Hrow]. done. }
  assert (Hw : slice_width m k ≤ m).
  { unfold slice_width. case_decide; lia. }
  rewrite Hconcat.
  rewrite (concat_take_uniform m) by done.
  rewrite <- Hvalues.
  rewrite <- (drop_drop (concat rows) (length values) (i * m)).
  rewrite (concat_drop_uniform m) by done.
  rewrite (drop_S _ _ _ Hrow). simpl.
  rewrite drop_app_le by lia.
  rewrite insert_take_drop by lia.
  replace (concat (take i rows) ++ values ++ drop (length values) row
           ++ concat (drop (S i) rows))
    with (concat (take i rows ++ (values ++ drop (length values) row)
                  :: drop (S i) rows))
    by (rewrite concat_app; simpl; by rewrite <- !(assoc_L (++))).
  apply chunks_concat.
  - rewrite length_app, length_take, length_cons, length_drop. lia.
  - apply Forall_app. split; [by apply Forall_take|].
    constructor; [|by apply Forall_drop].
    rewrite length_app, length_drop. lia.
Qed.


Lemma assign_row_prefix_index a i k values a' n m :
  shape a = [n; m] → assign_row_prefix a i k values = Ok a' → i < n.
Proof.
  intros Hshape. unfold assign_row_prefix. rewrite Hshape.
  by case_decide.
Qed.

Lemma slice_to_padded (processed : list Z) (max_len : Z) :
  (0 ≤ max_len)%Z →
  slice_to processed max_len
  ++ drop (length (slice_to processed max_len))
          (replicate (Z.to_nat max_len) 0%Z)
  = padded_row (Z.to_nat max_len) processed.
Proof.
  intros Hmax. unfold padded_row, slice_to. rewrite decide_True by done.
  rewrite drop_replicate, length_take. f_equal. f_equal. lia.
Qed.

(** The copying loop writes the rows it is given, in order, and leaves the
    others as they are. *)
Lemma fill_rows_rows function max_len n sequences : ∀ first a a',
  (0 ≤ max_len)%Z → first ≤ n →
  shape a = [n; Z.to_nat max_len] →
  length (data a) = n * Z.to_nat max_len →
  drop first (array_rows a)
  = replicate (n - first) (replicate (Z.to_nat max_len) 0%Z) →
  fill_rows a max_len function (imap (λ i, pair (first + i)) sequences)
  = Ok a' →
  first + length sequences ≤ n
  ∧ array_rows a'
    = take first (array_rows a)
      ++ (padded_row (Z.to_nat max_len) ∘ function <$> sequences)
      ++ replicate (n - first - length sequences)
                   (replicate (Z.to_nat max_len) 0%Z).
Proof.
  induction sequences as [|seq sequences IH];
    intros first a a' Hmax Hle0 Hshape Hdata Hzeros Hfill.
  - simpl in Hfill. injection Hfill as <-. simpl.
    assert (length (array_rows a) = n).
    { rewrite (array_rows_2d a n (Z.to_nat max_len)) by done.
      apply chunks_length. }
    split; [lia|]. rewrite Nat.sub_0_r, <- Hzeros. by rewrite take_drop.
  - rewrite imap_cons in Hfill. simpl in Hfill.
    rewrite Nat.add_0_r in Hfill.
    destruct (assign_row_prefix a first _ _) as [a1|e] eqn:Hassign; [|done].
    simpl in Hfill.
    pose proof (assign_row_prefix_index _ _ _ _ _ _ _ Hshape Hassign) as Hfirst.
    destruct (assign_row_prefix_shape _ _ _ _ _ _ _ Hshape Hdata Hassign)
      as [Hshape1 Hdata1].
    assert (Hvalues : length (slice_to (function seq) max_len)
                      = slice_width (Z.to_nat max_len)
                          (Z.min max_len (Z.of_nat (length (function seq))))).
    { rewrite slice_to_length. unfold slice_width.
      rewrite !decide_True by lia. lia. }
    destruct (assign_row_prefix_rows _ _ _ _ _ _ _ Hshape Hdata Hvalues Hassign)
      as (row & Hrow & Hrows1).
    assert (Hzero : row = replicate (Z.to_nat max_len) 0%Z).
    { apply (f_equal (λ l, l !! 0)) in Hzeros.
      rewrite lookup_drop, Nat.add_0_r, Hrow in Hzeros.
      rewrite lookup_replicate_2 in Hzeros by lia. by injection Hzeros. }
    rewrite Hzero, slice_to_padded in Hrows1 by done.
    destruct (IH (S first) a1 a' Hmax ltac:(lia) Hshape1 Hdata1)
      as [Hle Hrows].
    + rewrite Hrows1, drop_insert_lt by lia.
      replace (S first) with (first + 1) by lia.
      rewrite <- (drop_drop _ 1 first), Hzeros, drop_replicate.
      f_equal. lia.
    + erewrite imap_ext; [exact Hfill|].
      intros i s _. simpl. f_equal. lia.
    + split; [simpl; lia|].
      rewrite Hrows, Hrows1. simpl.
      assert (first < length (array_rows a)).
      { by apply lookup_lt_Some in Hrow. }
      rewrite (take_S_r _ _ (padded_row (Z.to_nat max_len) (function seq)))
        by (by apply list_lookup_insert_eq).
      rewrite take_insert_ge by lia. rewrite <- !(assoc_L (++)). simpl.
      replace (n - S first - length sequences)
        with (n - first - S (length sequences)) by lia.
      done.
Qed.


Lemma chunks_replicate {A} n m (x : A) :
  chunks n m (replicate (n * m) x) = replicate n (replicate m x).
Proof.
  induction n as [|n IH]; simpl; [done|].
  rewrite take_replicate, drop_replicate.
  replace (Nat.min m (m + n * m)) with m by lia.
  replace (m + n * m - m) with (n * m) by lia. by rewrite IH.
Qed.

(** What [_make_array] stores: row [i] is the processed sequence [i], cut
    or zero-filled to the width; the rows without a sequence stay zero. *)
Lemma make_array_content self sequences function max_len array :
  _make_array self sequences function max_len = Ok array →
  ∃ width,
    chosen_width self sequences max_len = Ok (Z.of_nat width)
    ∧ shape array = [latest_batch_size self; width]
    ∧ length sequences ≤ latest_batch_size self
    ∧ array_rows array
      = (padded_row width ∘ function <$> sequences)
        ++ replicate (latest_batch_size self - length sequences)
                     (replicate width 0%Z).
Proof.
  intros Harray.
  pose proof (make_array_inv self _ _ _ _ Harray)
    as (max_len' & Hwidth & Hpos & Hshape & _).
  unfold _make_array in Harray. fold (chosen_width self sequences max_len) in Harray.
  rewrite Hwidth in Harray. simpl in Harray.
  rewrite np_zeros_2d in Harray by done. simpl in Harray.
  apply (fill_rows_rows function max_len' (latest_batch_size self) sequences 0)
    in Harray as [Hle Hrows]; try done.
  - exists (Z.to_nat max_len'). rewrite Z2Nat.id by done.
    repeat split; try done.
    rewrite Hrows, take_0, Nat.sub_0_r. done.
  - lia.
  - simpl. by rewrite length_replicate.
  - rewrite (array_rows_2d _ (latest_batch_size self) (Z.to_nat max_len'))
      by done.
    simpl. by rewrite chunks_replicate, Nat.sub_0_r.
Qed.

(** More sequences than rows: the copy stops with an [IndexError]. *)
Lemma fill_rows_overflow function max_len n sequences : ∀ first a,
  (0 ≤ max_len)%Z → first ≤ n → n < first + length sequences →
  shape a = [n; Z.to_nat max_len] →
  length (data a) = n * Z.to_nat max_len →
  fill_rows a max_len function (imap (λ i, pair (first + i)) sequences)
  = Raise IndexError.
Proof.
  induction sequences as [|seq sequences IH];
    intros first a Hmax Hle Hover Hshape Hdata; simpl in *; [lia|].
  rewrite Nat.add_0_r.
  destruct (decide (first < n)) as [Hlt|Hge].
  - destruct (assign_row_prefix_ok a first
                (Z.min max_len (Z.of_nat (length (function seq))))
                (slice_to (function seq) max_len) n (Z.to_nat max_len))
      as [a1 Ha1]; [done..| |].
    { rewrite slice_to_length. unfold slice_width.
      rewrite !decide_True by lia. lia. }
    rewrite Ha1. simpl.
    destruct (assign_row_prefix_shape _ _ _ _ _ _ _ Hshape Hdata Ha1).
    erewrite imap_ext; [apply (IH (S first)); try done; lia|].
    intros i s _. simpl. f_equal. lia.
  - unfold assign_row_prefix. rewrite Hshape.
    by rewrite decide_False by done.
Qed.


Lemma chosen_width_nonneg self sequences max_len width :
  chosen_width self sequences max_len = Ok width →
  use_dynamic_array_sizes self = true ∨ (0 ≤ default 0 max_len)%Z →
  (0 ≤ width)%Z.
Proof.
  unfold chosen_width. intros Hwidth Hcases.
  destruct (use_dynamic_array_sizes self || not_given max_len) eqn:Hdyn.
  - destruct (py_max (length <$> sequences)); [|done].
    simpl in Hwidth. injection Hwidth as <-. lia.
  - injection Hwidth as <-. destruct Hcases as [Hd|?]; [|done].
    by rewrite Hd in Hdyn.
Qed.

Lemma make_array_overflow self sequences function max_len width :
  chosen_width self sequences max_len = Ok width → (0 ≤ width)%Z →
  latest_batch_size self < length sequences →
  _make_array self sequences function max_len = Raise IndexError.
Proof.
  intros Hwidth Hpos Hover.
  unfold _make_array. fold (chosen_width self sequences max_len).
  rewrite Hwidth. simpl. rewrite np_zeros_2d by done. simpl.
  apply (fill_rows_overflow function width (latest_batch_size self) sequences 0);
    try done; [lia|simpl; by rewrite length_replicate].
Qed.

Lemma make_array_negative self sequences function max_len :
  use_dynamic_array_sizes self = false → (max_len < 0)%Z →
  _make_array self sequences function (Some max_len) = Raise ValueError.
Proof.
  intros Hdyn Hneg. unfold _make_array.
  rewrite Hdyn. simpl. rewrite bool_decide_eq_false_2 by lia. simpl.
  unfold np_zeros. rewrite decide_False; [done|].
  intros Hall. apply Forall_cons in Hall as [_ Hall].
  apply Forall_inv in Hall. lia.
Qed.

(** X1.  When the width [_make_array] settles on is defined and there are
    at most [latest_batch_size] sequences, [_make_array] returns an array of
    [latest_batch_size] rows of that width: row [i] is [function] of
    sequence [i], cut on the right to the width or filled with zeros on the
    right, and the rows beyond the sequences are zero. *)
Theorem make_array_pads_and_truncates self sequences function max_len width :
  chosen_width self sequences max_len = Ok (Z.of_nat width) →
  length sequences ≤ latest_batch_size self →
  ∃ array,
    _make_array self sequences function max_len = Ok array
    ∧ shape array = [latest_batch_size self; width]
    ∧ array_rows array
      = (padded_row width ∘ function <$> sequences)
        ++ replicate (latest_batch_size self - length sequences)
                     (replicate width 0%Z).
Proof.
  intros Hwidth Hlen.
  destruct (make_array_ok self sequences function max_len (Z.of_nat width))
    as [array Harray]; [done|lia|done|].
  exists array. split; [done|].
  destruct (make_array_content self _ _ _ _ Harray)
    as (width' & Hwidth' & Hshape & _ & Hrows).
  rewrite Hwidth in Hwidth'. injection Hwidth' as Heq.
  apply Nat2Z.inj in Heq as <-. done.
Qed.

Lemma make_array_pads_and_truncates_witness :
  ∃ array,
    _make_array greeting [txt "hi there"] (encode ascii_alphabet) (Some 4%Z)
    = Ok array
    ∧ array_rows array = [[104; 105; 32; 116]%Z].
Proof.
  destruct (make_array_pads_and_truncates greeting [txt "hi there"]
              (encode ascii_alphabet) (Some 4%Z) 4)
    as (array & Harray & _ & Hrows); [done | simpl; lia |].
  exists array. split; [exact Harray | exact Hrows].
Defined.

(** X2.  The three ways [_make_array] fails: no sequence when the width is
    taken from the sequences ([max] of an empty list), a negative fixed
    width, and more sequences than [latest_batch_size] rows. *)
Theorem make_array_errors self function :
  (∀ max_len,
     use_dynamic_array_sizes self || not_given max_len = true →
     _make_array self [] function max_len = Raise ValueError)
  ∧ (∀ sequences max_len,
       use_dynamic_array_sizes self = false → (max_len < 0)%Z →
       _make_array self sequences function (Some max_len) = Raise ValueError)
  ∧ (∀ sequences max_len width,
       chosen_width self sequences max_len = Ok width → (0 ≤ width)%Z →
       latest_batch_size self < length sequences →
       _make_array self sequences function max_len = Raise IndexError).
Proof.
  split; [|split].
  - intros max_len Hdyn. unfold _make_array. by rewrite Hdyn.
  - intros sequences max_len. apply make_array_negative.
  - intros sequences max_len width. apply make_array_overflow.
Qed.

Lemma make_array_errors_witness :
  _make_array greeting [txt "a"; txt "b"] (_mask greeting) (Some 3%Z)
  = Raise IndexError.
Proof.
  destruct (make_array_errors greeting (_mask greeting)) as (_ & _ & Hover).
  apply (Hover [txt "a"; txt "b"] (Some 3%Z) 3%Z); [done | lia | simpl; lia].
Defined.

Section batch_results.
Variable self : TextBatchGenerator.

Lemma add_sos_ok a m :
  shape a = [latest_batch_size self; m] →
  ∃ go, _add_sos self a = Ok go.
Proof.
  intros Hshape. unfold _add_sos, drop_last_column. rewrite Hshape. simpl.
  unfold np_concatenate1. simpl. rewrite decide_True by done. by eexists.
Qed.

Lemma unzip_samples_ok :
  samples self ≠ [] →
  unzip_samples self = Ok ((samples self).*1, (samples self).*2).
Proof. unfold unzip_samples. by destruct (samples self). Qed.

(** Every call of [_make_array] in [_make_batch] has a width. *)
Lemma batch_width_defined (sequences : list text) max_len :
  sequences ≠ [] →
  use_dynamic_array_sizes self = true ∨ (0 ≤ max_len)%Z →
  ∃ width, chosen_width self sequences (Some max_len) = Ok width
           ∧ (0 ≤ width)%Z.
Proof.
  intros Hne Hcases. unfold chosen_width.
  destruct (use_dynamic_array_sizes self || not_given (Some max_len)) eqn:Hdyn.
  - destruct sequences; [done|]. simpl. eexists. split; [done|]. lia.
  - eexists. split; [done|]. simpl. destruct Hcases as [Hd|?]; [|done].
    by rewrite Hd in Hdyn.
Qed.

Lemma plain_batch_ok :
  samples self ≠ [] →
  length (samples self) ≤ latest_batch_size self →
  use_dynamic_array_sizes self = true ∨ (0 ≤ seq_len self)%Z →
  ∃ plain, plain_batch self = Ok plain.
Proof.
  intros Hne Hlen Hcases.
  assert (Hx : (samples self).*1 ≠ []) by (by destruct (samples self)).
  assert (Ht : (samples self).*2 ≠ []) by (by destruct (samples self)).
  assert (Hquarter : use_dynamic_array_sizes self = true
                     ∨ (0 ≤ seq_len self / 4)%Z).
  { destruct Hcases as [?|?]; [by left|right]. apply Z.div_pos; lia. }
  assert (Harray : ∀ sequences function max_len,
            sequences ≠ [] → length sequences = length (samples self) →
            use_dynamic_array_sizes self = true ∨ (0 ≤ max_len)%Z →
            ∃ a, _make_array self sequences function (Some max_len) = Ok a
                 ∧ ∃ m, shape a = [latest_batch_size self; m]).
  { intros sequences function max_len Hs Hl Hc.
    destruct (batch_width_defined sequences max_len Hs Hc)
      as (width & Hwidth & Hpos).
    destruct (make_array_ok self sequences function (Some max_len) width)
      as [a Ha]; [done..|lia|].
    exists a. split; [done|].
    apply make_array_inv in Ha as (? & _ & _ & Hshape & _). by eexists. }
  unfold plain_batch. rewrite unzip_samples_ok by done.
  cbn [mbind result_bind].
  destruct (Harray (samples self).*1 (encode (alphabet self)) (seq_len self))
    as (x_encoded & -> & _); [done|by rewrite length_fmap|done|].
  cbn [mbind result_bind].
  destruct (Harray (samples self).*2 (encode (alphabet self)) (seq_len self))
    as (t_encoded & -> & m & Hshape); [done|by rewrite length_fmap|done|].
  cbn [mbind result_bind].
  destruct (add_sos_ok t_encoded m Hshape) as [go ->].
  cbn [mbind result_bind].
  destruct (Harray (samples self).*1 (_spaces self) (seq_len self / 4)%Z)
    as (x_spaces & -> & _); [done|by rewrite length_fmap|done|].
  cbn [mbind result_bind].
  destruct (Harray (samples self).*2 (_mask self) (seq_len self))
    as (t_mask & -> & _); [done|by rewrite length_fmap|done|].
  cbn [mbind result_bind]. by eexists.
Qed.
End batch_results.


(** The names of the arrays of a batch. *)
Lemma plain_batch_vectors self plain :
  plain_batch self = Ok plain →
  let eos := if add_eos_character self then 1%Z else 0%Z in
  plain !! "x_len" = Some (_make_len_vec (samples self).*1 eos 100000)
  ∧ plain !! "t_len" = Some (_make_len_vec (samples self).*2 eos 100000)
  ∧ plain !! "x_spaces_len"
    = Some (_make_len_vec (_spaces self <$> (samples self).*1) 0
              (seq_len self / 4))
  ∧ dom plain
    = list_to_set ["x_encoded"; "t_encoded"; "t_encoded_go"; "x_spaces";
                   "t_mask"; "x_len"; "t_len"; "x_spaces_len"].
Proof.
  unfold plain_batch.
  destruct (decide (samples self = [])) as [Hnil|Hsamples].
  { unfold unzip_samples. by rewrite Hnil. }
  rewrite unzip_samples_ok by done. cbn [mbind result_bind].
  destruct (_make_array self (samples self).*1 (encode (alphabet self))
              (Some (seq_len self))) as [x_encoded|?]; [|done].
  cbn [mbind result_bind].
  destruct (_make_array self (samples self).*2 (encode (alphabet self))
              (Some (seq_len self))) as [t_encoded|?]; [|done].
  cbn [mbind result_bind].
  destruct (_add_sos self t_encoded) as [t_encoded_go|?]; [|done].
  cbn [mbind result_bind].
  destruct (_make_array self (samples self).*1 (_spaces self)
              (Some (seq_len self / 4)%Z)) as [x_spaces|?]; [|done].
  cbn [mbind result_bind].
  destruct (_make_array self (samples self).*2 (_mask self)
              (Some (seq_len self))) as [t_mask|?]; [|done].
  cbn [mbind result_bind]. intros [= <-]. cbv zeta.
  repeat split; by simplify_map_eq.
Qed.

Lemma shape_expand_head a :
  shape a ≠ [] → head (shape (np_expand_dims_last a)) = head (shape a).
Proof. simpl. by destruct (shape a). Qed.

(** X3.  Without [add_feature_dim], with at least one sample, at most
    [latest_batch_size] samples and a width that is defined (dynamic sizes,
    or a non-negative [seq_len]), [_make_batch] returns a batch with exactly
    the eight arrays; the five two-dimensional arrays have
    [latest_batch_size] rows and the three length vectors have one entry per
    sample. *)
Theorem make_batch_succeeds self :
  add_feature_dim self = false →
  samples self ≠ [] →
  length (samples self) ≤ latest_batch_size self →
  use_dynamic_array_sizes self = true ∨ (0 ≤ seq_len self)%Z →
  ∃ batch,
    _make_batch self = Ok batch
    ∧ dom batch
      = list_to_set ["x_encoded"; "t_encoded"; "t_encoded_go"; "x_spaces";
                     "t_mask"; "x_len"; "t_len"; "x_spaces_len"]
    ∧ (∀ key array,
         key ∈ ["x_encoded"; "t_encoded"; "t_encoded_go"; "x_spaces"; "t_mask"] →
         batch !! key = Some array →
         head (shape array) = Some (latest_batch_size self))
    ∧ (∀ key array,
         key ∈ ["x_len"; "t_len"; "x_spaces_len"] →
         batch !! key = Some array →
         head (shape array) = Some (length (samples self))).
Proof.
  intros Hflag Hne Hlen Hwidth.
  destruct (plain_batch_ok self Hne Hlen Hwidth) as [plain Hplain].
  destruct (plain_batch_inv self plain Hplain)
    as (x_encoded & t_encoded & t_encoded_go & x_spaces & t_mask & _ & Hx
        & Ht & Hgo & Hs & Hm & Hlx & Hlt & Hlgo & Hls & Hlm).
  destruct (plain_batch_vectors self plain Hplain)
    as (Hxlen & Htlen & Hslen & Hdom).
  exists plain. split.
  { unfold _make_batch. by rewrite Hplain, Hflag. }
  apply make_array_inv in Hx as (? & _ & _ & Hsx & _).
  pose proof Ht as Ht'.
  apply make_array_inv in Ht as (? & _ & _ & Hst & Hwf).
  apply make_array_inv in Hs as (? & _ & _ & Hss & _).
  apply make_array_inv in Hm as (? & _ & _ & Hsm & _).
  destruct (add_sos_rows self t_encoded t_encoded_go _ Hst Hwf Hgo)
    as [Hsgo _].
  split; [done|]. split.
  - intros key array Hkey.
    repeat (apply elem_of_cons in Hkey as [->|Hkey]);
      try (by apply elem_of_nil in Hkey).
    + rewrite Hlx. intros [= <-]. by rewrite Hsx.
    + rewrite Hlt. intros [= <-]. by rewrite Hst.
    + rewrite Hlgo. intros [= <-]. by rewrite Hsgo.
    + rewrite Hls. intros [= <-]. by rewrite Hss.
    + rewrite Hlm. intros [= <-]. by rewrite Hsm.
  - intros key array Hkey.
    repeat (apply elem_of_cons in Hkey as [->|Hkey]);
      try (by apply elem_of_nil in Hkey).
    + rewrite Hxlen. intros [= <-]. simpl. by rewrite !length_fmap.
    + rewrite Htlen. intros [= <-]. simpl. by rewrite !length_fmap.
    + rewrite Hslen. intros [= <-]. simpl. by rewrite !length_fmap.
Qed.

Lemma make_batch_succeeds_witness :
  ∃ batch, _make_batch greeting = Ok batch ∧ size (dom batch) = 8.
Proof.
  destruct (make_batch_succeeds greeting) as (batch & Hbatch & Hdom & _);
    [done | done | simpl; lia | right; simpl; lia |].
  exists batch. split; [exact Hbatch|]. by rewrite Hdom.
Defined.

(** X4.  The ways [_make_batch] fails: without any sample the unpacking of
    the unzipped samples is a [ValueError]; with a negative [seq_len] and
    fixed sizes the first array cannot be allocated ([ValueError]); with
    more samples than [latest_batch_size] the copy into the first array runs
    past the last row ([IndexError]). *)
Theorem make_batch_errors self :
  (samples self = [] → _make_batch self = Raise ValueError)
  ∧ (samples self ≠ [] → use_dynamic_array_sizes self = false →
     (seq_len self < 0)%Z → _make_batch self = Raise ValueError)
  ∧ (latest_batch_size self < length (samples self) →
     use_dynamic_array_sizes self = true ∨ (0 ≤ seq_len self)%Z →
     _make_batch self = Raise IndexError).
Proof.
  split; [|split].
  - intros Hnil. unfold _make_batch, plain_batch, unzip_samples.
    by rewrite Hnil.
  - intros Hne Hdyn Hneg. unfold _make_batch, plain_batch.
    rewrite unzip_samples_ok by done. cbn [mbind result_bind].
    by rewrite (make_array_negative self (samples self).*1
                  (encode (alphabet self)) _ Hdyn Hneg).
  - intros Hover Hwidth.
    assert (Hne : samples self ≠ []).
    { intros Hnil. rewrite Hnil in Hover. simpl in Hover. lia. }
    unfold _make_batch, plain_batch.
    rewrite unzip_samples_ok by done. cbn [mbind result_bind].
    destruct (batch_width_defined self (samples self).*1 (seq_len self))
      as (width & Hw & Hpos); [by destruct (samples self)|done|].
    rewrite (make_array_overflow self (samples self).*1
               (encode (alphabet self)) _ width); try done.
    by rewrite length_fmap.
Qed.

Lemma make_batch_errors_witness :
  _make_batch (with_seq_len (-1) greeting) = Raise ValueError.
Proof.
  destruct (make_batch_errors (with_seq_len (-1) greeting))
    as (_ & Hnegative & _).
  apply Hnegative; [done | done | simpl; lia].
Defined.


(** ** Masks, word boundaries and lengths *)

Lemma mask_replicate self sentence :
  _mask self sentence
  = replicate (length sentence + (if add_eos_character self then 1 else 0))
              1%Z.
Proof.
  unfold _mask. destruct (add_eos_character self).
  - rewrite Nat.add_1_r. by rewrite replicate_S_end.
  - by rewrite Nat.add_0_r.
Qed.

Lemma padded_row_replicate width n (v : Z) :
  padded_row width (replicate n v)
  = replicate (Nat.min n width) v ++ replicate (width - n) 0%Z.
Proof.
  unfold padded_row. rewrite take_replicate, length_replicate.
  by rewrite (Nat.min_comm width n).
Qed.

(** The rows of an array of a batch are those of the array before the
    feature axis is added. *)
Lemma batch_array_rows self (a : ndarray) n m :
  shape a = [n; m] →
  array_rows ((if add_feature_dim self then np_expand_dims_last else id) a)
  = array_rows a
  ∧ shape ((if add_feature_dim self then np_expand_dims_last else id) a) !! 1
    = Some m.
Proof.
  intros Hshape. destruct (add_feature_dim self); simpl.
  - rewrite array_rows_expand_dims by (by rewrite Hshape).
    by rewrite Hshape.
  - by rewrite Hshape.
Qed.

(** The mask and the target lengths of a batch, row by row. *)
Lemma batch_mask_rows self batch :
  _make_batch self = Ok batch →
  ∃ t_mask t_len width,
    batch !! "t_mask" = Some t_mask
    ∧ batch !! "t_len" = Some t_len
    ∧ chosen_width self (samples self).*2 (Some (seq_len self))
      = Ok (Z.of_nat width)
    ∧ shape t_mask !! 1 = Some width
    ∧ ∀ i (t : text),
        (samples self).*2 !! i = Some t →
        array_rows t_mask !! i = Some (padded_row width (_mask self t))
        ∧ data t_len !! i
          = Some (Z.min (Z.of_nat (length t)
                         + (if add_eos_character self then 1 else 0))
                        100000).
Proof.
  intros Hbatch.
  destruct (make_batch_plain self batch Hbatch) as [plain Hplain].
  destruct (plain_batch_inv self plain Hplain)
    as (x_encoded & t_encoded & t_encoded_go & x_spaces & t_mask & _ & _
        & _ & _ & _ & Hm & _ & _ & _ & _ & Hlm).
  destruct (plain_batch_vectors self plain Hplain) as (_ & Htlen & _ & _).
  destruct (make_array_content self _ _ _ _ Hm)
    as (width & Hchosen & Hshape & _ & Hrows).
  destruct (batch_array_rows self t_mask _ _ Hshape) as [Hrows' Hwidth].
  eexists _, _, width.
  rewrite !(make_batch_lookup self batch plain) by done.
  rewrite Hlm, Htlen. simpl. do 2 (split; [done|]). do 2 (split; [done|]).
  intros i t Hi. split.
  - rewrite Hrows', Hrows.
    rewrite lookup_app_l
      by (rewrite length_fmap; by apply lookup_lt_Some in Hi).
    by rewrite list_lookup_fmap, Hi.
  - pose proof Hi as Hi'. rewrite list_lookup_fmap in Hi'.
    destruct (add_feature_dim self); simpl;
      by rewrite !list_lookup_fmap, Hi'.
Qed.

(** X5.  In every batch, row [i] of [t_mask] is a run of ones followed by
    zeros; the run has the length of target [i], plus one with the
    end-of-sequence character, cut at the width of the array.  Entry [i] of
    [t_len] is that same adjusted length, cut at 100000: the number of ones
    in the mask is [t_len] whenever the adjusted length fits the width. *)
Theorem mask_matches_length self batch :
  _make_batch self = Ok batch →
  ∃ t_mask t_len width,
    batch !! "t_mask" = Some t_mask
    ∧ batch !! "t_len" = Some t_len
    ∧ shape t_mask !! 1 = Some width
    ∧ ∀ i (t : text),
        (samples self).*2 !! i = Some t →
        let adjusted :=
          length t + (if add_eos_character self then 1 else 0) in
        array_rows t_mask !! i
        = Some (replicate (Nat.min adjusted width) 1%Z
                ++ replicate (width - adjusted) 0%Z)
        ∧ data t_len !! i = Some (Z.min (Z.of_nat adjusted) 100000).
Proof.
  intros Hbatch.
  destruct (batch_mask_rows self batch Hbatch)
    as (t_mask & t_len & width & Hmask & Hlen & _ & Hwidth & Hrows).
  exists t_mask, t_len, width. do 3 (split; [done|]).
  intros i t Hi adjusted. destruct (Hrows i t Hi) as [Hrow Hentry].
  split.
  - rewrite Hrow, mask_replicate. by rewrite padded_row_replicate.
  - rewrite Hentry. do 2 f_equal. unfold adjusted.
    destruct (add_eos_character self); lia.
Qed.

Lemma mask_matches_length_witness :
  ∃ batch t_mask,
    _make_batch greeting = Ok batch
    ∧ batch !! "t_mask" = Some t_mask
    ∧ array_rows t_mask !! 0 = Some [1; 1; 1; 1; 1; 1; 0; 0; 0; 0]%Z.
Proof.
  destruct (_make_batch greeting) as [batch|] eqn:Hbatch; [|done].
  destruct (mask_matches_length greeting batch Hbatch)
    as (t_mask & t_len & width & Hmask & _ & Hwidth & Hrows).
  exists batch, t_mask. split; [done|]. split; [done|].
  destruct (Hrows 0 (txt "salut") eq_refl) as [Hrow _].
  vm_compute in Hbatch. injection Hbatch as <-.
  vm_compute in Hmask. injection Hmask as <-.
  vm_compute in Hwidth. injection Hwidth as <-.
  exact Hrow.
Defined.

(** X6.  With fixed sizes and [seq_len >= 4], [x_spaces] has
    [seq_len // 4] columns, entry [i] of [x_spaces_len] is the number of
    word boundaries of source [i] that fit, and row [i] of [x_spaces] is
    exactly that many boundaries followed by zeros. *)
Theorem spaces_match_length self batch :
  use_dynamic_array_sizes self = false → (4 ≤ seq_len self)%Z →
  _make_batch self = Ok batch →
  ∃ x_spaces x_spaces_len,
    batch !! "x_spaces" = Some x_spaces
    ∧ batch !! "x_spaces_len" = Some x_spaces_len
    ∧ shape x_spaces !! 1 = Some (Z.to_nat (seq_len self / 4))
    ∧ ∀ i (x : text),
        (samples self).*1 !! i = Some x →
        let count :=
          Nat.min (length (_spaces self x)) (Z.to_nat (seq_len self / 4)) in
        data x_spaces_len !! i = Some (Z.of_nat count)
        ∧ array_rows x_spaces !! i
          = Some (take count (_spaces self x)
                  ++ replicate (Z.to_nat (seq_len self / 4) - count) 0%Z).
Proof.
  intros Hdyn Hlen Hbatch.
  destruct (make_batch_plain self batch Hbatch) as [plain Hplain].
  destruct (plain_batch_inv self plain Hplain)
    as (x_encoded & t_encoded & t_encoded_go & x_spaces & t_mask & _ & _
        & _ & _ & Hs & _ & _ & _ & _ & Hls & _).
  destruct (plain_batch_vectors self plain Hplain) as (_ & _ & Hslen & _).
  destruct (make_array_content self _ _ _ _ Hs)
    as (width & Hwidth & Hshape & _ & Hrows).
  assert (Hquarter : (1 ≤ seq_len self / 4)%Z).
  { apply Z.div_le_lower_bound; lia. }
  assert (width = Z.to_nat (seq_len self / 4)) as ->.
  { unfold chosen_width in Hwidth. rewrite Hdyn in Hwidth. simpl in Hwidth.
    rewrite bool_decide_eq_false_2 in Hwidth by lia.
    injection Hwidth as Hw. lia. }
  destruct (batch_array_rows self x_spaces _ _ Hshape) as [Hrows' Hsecond].
  eexists _, _.
  rewrite !(make_batch_lookup self batch plain) by done.
  rewrite Hls, Hslen. simpl. do 2 (split; [done|]). split; [done|].
  intros i x Hi. split.
  - pose proof Hi as Hi'. rewrite list_lookup_fmap in Hi'.
    destruct (add_feature_dim self); simpl;
      rewrite !list_lookup_fmap, Hi'; simpl; f_equal; lia.
  - rewrite Hrows', Hrows.
    rewrite lookup_app_l
      by (rewrite length_fmap; by apply lookup_lt_Some in Hi).
    rewrite list_lookup_fmap, Hi. simpl. unfold padded_row.
    f_equal. f_equal.
    + destruct (decide (length (_spaces self x)
                        ≤ Z.to_nat (seq_len self / 4))).
      * rewrite Nat.min_l by done. by rewrite !take_ge by lia.
      * by rewrite Nat.min_r by lia.
    + f_equal. lia.
Qed.

Lemma spaces_match_length_witness :
  ∃ batch x_spaces,
    _make_batch greeting = Ok batch
    ∧ batch !! "x_spaces" = Some x_spaces
    ∧ array_rows x_spaces !! 0 = Some [1; 7]%Z.
Proof.
  destruct (_make_batch greeting) as [batch|] eqn:Hbatch; [|done].
  destruct (spaces_match_length greeting batch eq_refl) with (2 := Hbatch)
    as (x_spaces & x_spaces_len & Hlookup & _ & _ & Hrows); [simpl; lia|].
  exists batch, x_spaces. split; [done|]. split; [done|].
  destruct (Hrows 0 (txt "hi there") eq_refl) as [_ Hrow]. exact Hrow.
Defined.


(** The positions before a space, for a sentence whose first character has
    index [first]. *)
Lemma boundaries_from (sentence : text) : ∀ first (p : Z),
  p ∈ omap (λ ic : nat * ascii,
              if decide (ic.2 = " "%char)
              then Some (Z.of_nat ic.1 - 1)%Z else None)
           (imap (λ i, pair (first + i)) sentence)
  ↔ ∃ idx, sentence !! idx = Some " "%char
           ∧ p = (Z.of_nat (first + idx) - 1)%Z.
Proof.
  induction sentence as [|c sentence IH]; intros first p.
  - simpl. split; [by intros ?%elem_of_nil|by intros (? & ? & _)].
  - rewrite imap_cons.
    rewrite (imap_ext _ (λ i, pair (S first + i))) by
      (intros; simpl; f_equal; lia).
    csimpl. pose proof (IH (S first)) as IH'. csimpl in IH'.
    destruct (decide (c = " "%char)) as [->|Hc].
    + rewrite elem_of_cons, IH'. split.
      * intros [->|(idx & Hidx & ->)].
        -- exists 0. split; [done|]. lia.
        -- exists (S idx). split; [done|]. lia.
      * intros ([|idx] & Hidx & ->).
        -- left. lia.
        -- right. exists idx. split; [done|]. lia.
    + rewrite IH'. split.
      * intros (idx & Hidx & ->). exists (S idx). split; [done|]. lia.
      * intros ([|idx] & Hidx & ->).
        -- simpl in Hidx. congruence.
        -- exists idx. split; [done|]. lia.
Qed.

Lemma boundaries_sorted (sentence : text) : ∀ first,
  StronglySorted Z.lt
    (omap (λ ic : nat * ascii,
             if decide (ic.2 = " "%char)
             then Some (Z.of_nat ic.1 - 1)%Z else None)
          (imap (λ i, pair (first + i)) sentence)).
Proof.
  induction sentence as [|c sentence IH]; intros first.
  - constructor.
  - rewrite imap_cons.
    rewrite (imap_ext _ (λ i, pair (S first + i))) by
      (intros; simpl; f_equal; lia).
    csimpl. pose proof (IH (S first)) as IH'. csimpl in IH'.
    pose proof (boundaries_from sentence (S first)) as Hfrom. csimpl in Hfrom.
    destruct (decide (c = " "%char)) as [->|Hc]; [|apply IH'].
    constructor; [apply IH'|].
    apply Forall_forall. intros p (idx & _ & ->)%Hfrom. lia.
Qed.

(** X7.  [_spaces] lists, in strictly increasing order, the position before
    each space of the sentence (with the end-of-sequence character, of the
    sentence followed by one more space) and then the last position of that
    sentence; the last entry is therefore the position of the
    end-of-sequence character when there is one. *)
Theorem spaces_are_word_boundaries self (sentence : text) :
  let augmented :=
    if add_eos_character self then sentence ++ [" "%char] else sentence in
  StronglySorted Z.lt (_spaces self sentence)
  ∧ last (_spaces self sentence) = Some (Z.of_nat (length augmented) - 1)%Z
  ∧ ∀ p : Z,
      p ∈ _spaces self sentence
      ↔ p = (Z.of_nat (length augmented) - 1)%Z
        ∨ ∃ idx, augmented !! idx = Some " "%char
                 ∧ p = (Z.of_nat idx - 1)%Z.
Proof.
  intros augmented. unfold _spaces. fold augmented.
  change (imap pair augmented) with (imap (λ i, pair (0 + i)) augmented).
  split; [|split].
  - apply StronglySorted_app_2.
    + intros p q (idx & Hidx & ->)%boundaries_from ->%list_elem_of_singleton.
      apply lookup_lt_Some in Hidx. lia.
    + apply boundaries_sorted.
    + repeat constructor.
  - by rewrite last_snoc.
  - intros p. rewrite elem_of_app, list_elem_of_singleton, boundaries_from.
    split; intros [?|?]; (by left) || (by right).
Qed.

(** ** The shifted target *)

(** X8.  [_add_sos] accepts an array of [latest_batch_size] rows and keeps
    its shape, except that an array without any column comes back with one
    column; an array with another number of rows is refused
    ([ValueError] of the concatenation). *)
Theorem add_sos_shape self a n m :
  shape a = [n; m] →
  (n = latest_batch_size self →
   ∃ go, _add_sos self a = Ok go ∧ shape go = [n; Nat.max m 1])
  ∧ (n ≠ latest_batch_size self → _add_sos self a = Raise ValueError).
Proof.
  intros Hshape. unfold _add_sos, drop_last_column. rewrite Hshape. simpl.
  unfold np_concatenate1. simpl. split.
  - intros ->. rewrite decide_True by done. eexists. split; [done|].
    simpl. f_equal. f_equal. lia.
  - intros Hn. rewrite decide_False; [done|]. by intros [? _].
Qed.

Lemma add_sos_shape_witness :
  ∃ go,
    _add_sos greeting {| shape := [1; 0]; data := [] |} = Ok go
    ∧ shape go = [1; 1].
Proof.
  destruct (add_sos_shape greeting {| shape := [1; 0]; data := [] |} 1 0
              eq_refl) as [Hok _].
  apply Hok. reflexivity.
Defined.


(** ** The sample loader, further *)

(** X9.  [_filter_samples] with a finite bound returns pairwise distinct
    samples: exactly the given pairs whose two sides are longer than one
    character and at most [max_length - 1] characters long.  With a bound of
    two or less nothing is kept. *)
Theorem filter_samples_bounds `{HashOrder} samples (max_length : Z) :
  NoDup (_filter_samples samples (Int max_length))
  ∧ (∀ s,
       s ∈ _filter_samples samples (Int max_length)
       ↔ s ∈ samples
         ∧ 1 < length s.1 ∧ (Z.of_nat (length s.1) ≤ max_length - 1)%Z
         ∧ 1 < length s.2 ∧ (Z.of_nat (length s.2) ≤ max_length - 1)%Z)
  ∧ ((max_length ≤ 2)%Z → _filter_samples samples (Int max_length) = []).
Proof.
  assert (Helem : ∀ s,
       s ∈ _filter_samples samples (Int max_length)
       ↔ s ∈ samples
         ∧ 1 < length s.1 ∧ (Z.of_nat (length s.1) ≤ max_length - 1)%Z
         ∧ 1 < length s.2 ∧ (Z.of_nat (length s.2) ≤ max_length - 1)%Z).
  { intros s. unfold _filter_samples.
    rewrite set_to_list_elem, !list_elem_of_filter. simpl. tauto. }
  split; [apply set_to_list_NoDup|]. split; [exact Helem|].
  intros Hsmall.
  destruct (_filter_samples samples (Int max_length)) as [|s kept] eqn:Hkept;
    [done|].
  assert (Hs : s ∈ s :: kept) by left.
  apply Helem in Hs. lia.
Qed.

Lemma filter_samples_bounds_witness :
  @_filter_samples insertion_order
    [(txt "ab", txt "cd"); (txt "abcdef", txt "cd")] (Int 2) = [].
Proof.
  destruct (@filter_samples_bounds insertion_order
              [(txt "ab", txt "cd"); (txt "abcdef", txt "cd")] 2)
    as (_ & _ & Hsmall).
  apply Hsmall. lia.
Defined.

(** X10.  [_truncate_samples] keeps the number and the order of the samples
    and replaces each side by a prefix of it.  For a limit that is not
    negative the prefix has [min(len, limit)] characters and truncating
    twice is truncating once; for a negative limit the slice counts from the
    end, so each side loses its last [-limit] characters. *)
Theorem truncate_samples_prefixes samples (limit : Z) :
  Forall2 (λ s s' : sample,
             s'.1 `prefix_of` s.1 ∧ s'.2 `prefix_of` s.2
             ∧ ((0 ≤ limit)%Z →
                length s'.1 = Nat.min (length s.1) (Z.to_nat limit)
                ∧ length s'.2 = Nat.min (length s.2) (Z.to_nat limit))
             ∧ ((limit < 0)%Z →
                length s'.1 = length s.1 - Z.to_nat (- limit)
                ∧ length s'.2 = length s.2 - Z.to_nat (- limit)))
          samples (_truncate_samples samples limit)
  ∧ ((0 ≤ limit)%Z →
     _truncate_samples (_truncate_samples samples limit) limit
     = _truncate_samples samples limit).
Proof.
  assert (Hprefix : ∀ l : text, slice_to l limit `prefix_of` l).
  { intros l. unfold slice_to. case_decide; apply prefix_take. }
  assert (Hlength : ∀ l : text,
            ((0 ≤ limit)%Z →
             length (slice_to l limit) = Nat.min (length l) (Z.to_nat limit))
            ∧ ((limit < 0)%Z →
               length (slice_to l limit) = length l - Z.to_nat (- limit))).
  { intros l. rewrite slice_to_length. unfold slice_width.
    case_decide; split; lia. }
  split.
  - unfold _truncate_samples. apply Forall2_fmap_r, Forall_Forall2_diag.
    apply Forall_forall. intros s _. simpl.
    destruct (Hlength s.1), (Hlength s.2). repeat split; auto.
  - intros Hlimit. unfold _truncate_samples.
    rewrite <- list_fmap_compose. apply list_fmap_ext. intros i s _. simpl.
    unfold slice_to. rewrite !decide_True by done.
    by rewrite !take_take, !Nat.min_id.
Qed.

Lemma truncate_samples_prefixes_witness :
  _truncate_samples (_truncate_samples [(txt "abcdef", txt "xy")] 3) 3
  = [(txt "abc", txt "xy")].
Proof.
  destruct (truncate_samples_prefixes [(txt "abcdef", txt "xy")] 3)
    as [_ Hidem].
  rewrite Hidem by lia. reflexivity.
Defined.

Lemma load_streams_missing fs paths : ∀ data_X data_t,
  Exists (λ p : string * string, fs !! p.1 = None ∨ fs !! p.2 = None) paths →
  load_streams fs paths data_X data_t = Raise IOError.
Proof.
  induction paths as [|[pX pt] paths IH]; intros data_X data_t Hmissing.
  - by apply Exists_nil in Hmissing.
  - simpl. unfold open_read.
    destruct (fs !! pX) as [cX|] eqn:HX; [|done]. simpl.
    destruct (fs !! pt) as [ct|] eqn:Ht; [|done]. simpl.
    apply IH. apply Exists_cons in Hmissing as [[?|?]|?]; simpl in *;
      congruence || done.
Qed.

(** X11.  A file that cannot be opened is fatal: when some source path and
    the target path paired with it do not both name a file, [_load_data]
    and the construction of the loader raise [IOError]. *)
Theorem load_missing_file `{HashOrder} fs paths_X paths_t seq_len i path_X path_t :
  paths_X !! i = Some path_X → paths_t !! i = Some path_t →
  fs !! path_X = None ∨ fs !! path_t = None →
  _load_data fs paths_X paths_t = Raise IOError
  ∧ TextLoader_init fs paths_X paths_t seq_len = Raise IOError.
Proof.
  intros HX Ht Hmissing.
  assert (Hload : _load_data fs paths_X paths_t = Raise IOError).
  { unfold _load_data. rewrite load_streams_missing; [done|].
    apply Exists_exists. exists (path_X, path_t). split; [|done].
    apply list_elem_of_lookup. exists i.
    by rewrite lookup_zip_with, HX, Ht. }
  split; [done|]. unfold TextLoader_init. by rewrite Hload.
Qed.

Lemma load_missing_file_witness :
  @TextLoader_init insertion_order uneven_files ["x.txt"] ["absent.txt"] 10
  = Raise IOError.
Proof.
  apply (@load_missing_file insertion_order uneven_files ["x.txt"]
           ["absent.txt"] 10 0 "x.txt" "absent.txt"); [done | done |].
  right. reflexivity.
Defined.

(** X12.  Without any sample [_preprocess_data] raises
    [ZeroDivisionError] (the retention percentage); with at least one it
    succeeds, also when no sample survives the filter, and never returns
    more samples than it was given. *)
Theorem preprocess_counts `{HashOrder} samples seq_len :
  (samples = [] → _preprocess_data samples seq_len = Raise ZeroDivisionError)
  ∧ (samples ≠ [] →
     ∃ retained,
       _preprocess_data samples seq_len = Ok retained
       ∧ length retained ≤ length samples).
Proof.
  split.
  - by intros ->.
  - intros Hne. unfold _preprocess_data.
    rewrite percentage_ok
      by (rewrite length_fmap; by destruct samples).
    simpl. eexists. split; [done|].
    unfold _truncate_samples, _filter_samples. rewrite length_fmap.
    set (stripped := _ <$> samples).
    set (filtered := filter _ (filter _ stripped)).
    transitivity (length filtered).
    + apply submseteq_length, NoDup_submseteq; [apply set_to_list_NoDup|].
      intros s. by rewrite set_to_list_elem.
    + unfold filtered. rewrite !length_filter.
      unfold stripped. by rewrite length_fmap.
Qed.

Lemma preprocess_counts_witness :
  ∃ retained,
    @_preprocess_data insertion_order [(txt "a", txt "b")] 10 = Ok retained
    ∧ length retained ≤ 1.
Proof.
  destruct (@preprocess_counts insertion_order [(txt "a", txt "b")] 10)
    as [_ Hok].
  apply Hok. done.
Defined.

(** X13.  When one of the two path lists is empty no file is opened, no
    sample is loaded, and the construction of the loader raises
    [ZeroDivisionError], whatever the files are. *)
Theorem loader_without_paths `{HashOrder} fs paths_X paths_t seq_len :
  paths_X = [] ∨ paths_t = [] →
  _load_data fs paths_X paths_t = Ok []
  ∧ TextLoader_init fs paths_X paths_t seq_len = Raise ZeroDivisionError.
Proof.
  intros Hempty.
  assert (Hzip : zip paths_X paths_t = []).
  { destruct Hempty as [-> | ->]; [done|]. by destruct paths_X. }
  assert (Hload : _load_data fs paths_X paths_t = Ok []).
  { unfold _load_data. by rewrite Hzip. }
  split; [done|]. unfold TextLoader_init. by rewrite Hload.
Qed.

Lemma loader_without_paths_witness :
  @TextLoader_init insertion_order uneven_files [] ["t.txt"] 10
  = Raise ZeroDivisionError.
Proof.
  apply (@loader_without_paths insertion_order uneven_files [] ["t.txt"] 10).
  by left.
Defined.


(** The samples of a loader are at most [seq_len - 1] characters long on
    each side. *)
Lemma loader_samples_short `{HashOrder} fs paths_X paths_t seq_len loader :
  (1 ≤ seq_len)%Z →
  TextLoader_init fs paths_X paths_t seq_len = Ok loader →
  Forall (λ s : sample,
            (Z.of_nat (length s.1) ≤ seq_len - 1)%Z
            ∧ (Z.of_nat (length s.2) ≤ seq_len - 1)%Z)
         (loader_samples loader).
Proof.
  intros Hlen. unfold TextLoader_init.
  destruct (_load_data fs paths_X paths_t) as [loaded|]; [|done]. simpl.
  unfold _preprocess_data. destruct (percentage _ _); [|done]. simpl.
  intros [= <-]. simpl. unfold _truncate_samples.
  rewrite Forall_fmap. apply Forall_forall. intros s _. simpl.
  rewrite !slice_to_length. unfold slice_width.
  rewrite !decide_True by lia. lia.
Qed.

(** X14.  Loader and batch generator fit together: for samples taken from
    a loader built with the same [seq_len] (between 1 and 100000) and fixed
    sizes, no mask is cut.  Row [i] of [t_mask] has one 1 per character of
    target [i], one more for the end-of-sequence character, and zeros up to
    [seq_len]; entry [i] of [t_len] is the number of those ones. *)
Theorem loader_samples_fit_mask `{HashOrder} fs paths_X paths_t loader self batch :
  (1 ≤ seq_len self ≤ 100000)%Z →
  use_dynamic_array_sizes self = false →
  TextLoader_init fs paths_X paths_t (seq_len self) = Ok loader →
  Forall (λ s, s ∈ loader_samples loader) (samples self) →
  _make_batch self = Ok batch →
  ∃ t_mask t_len,
    batch !! "t_mask" = Some t_mask
    ∧ batch !! "t_len" = Some t_len
    ∧ ∀ i (t : text),
        (samples self).*2 !! i = Some t →
        let adjusted :=
          length t + (if add_eos_character self then 1 else 0) in
        array_rows t_mask !! i
        = Some (replicate adjusted 1%Z
                ++ replicate (Z.to_nat (seq_len self) - adjusted) 0%Z)
        ∧ data t_len !! i = Some (Z.of_nat adjusted).
Proof.
  intros Hrange Hdyn Hloader Hfrom Hbatch.
  destruct (batch_mask_rows self batch Hbatch)
    as (t_mask & t_len & width & Hmask & Hlen & Hchosen & _ & Hrows).
  assert (width = Z.to_nat (seq_len self)) as ->.
  { unfold chosen_width in Hchosen. rewrite Hdyn in Hchosen.
    simpl in Hchosen. rewrite bool_decide_eq_false_2 in Hchosen by lia.
    injection Hchosen as Hw. lia. }
  exists t_mask, t_len. do 2 (split; [done|]).
  intros i t Hi adjusted. destruct (Hrows i t Hi) as [Hrow Hentry].
  assert (Hshort : (Z.of_nat (length t) ≤ seq_len self - 1)%Z).
  { rewrite list_lookup_fmap in Hi.
    destruct (samples self !! i) as [s|] eqn:Hs; [|done].
    injection Hi as <-.
    eapply Forall_lookup_1 in Hfrom; [|exact Hs].
    pose proof (loader_samples_short _ _ _ _ _ (proj1 Hrange) Hloader) as Hall.
    rewrite Forall_forall in Hall. by apply Hall in Hfrom as [_ ?]. }
  assert (adjusted ≤ Z.to_nat (seq_len self)).
  { unfold adjusted. destruct (add_eos_character self); lia. }
  split.
  - rewrite Hrow, mask_replicate, padded_row_replicate.
    fold adjusted. by rewrite Nat.min_l by done.
  - rewrite Hentry. f_equal. unfold adjusted.
    destruct (add_eos_character self); lia.
Qed.

Lemma loader_samples_fit_mask_witness :
  ∃ batch t_len,
    _make_batch uneven_loader_batch = Ok batch
    ∧ batch !! "t_len" = Some t_len
    ∧ data t_len !! 0 = Some 11%Z.
Proof.
  destruct (@TextLoader_init insertion_order uneven_files ["x.txt"] ["t.txt"]
              12) as [loader|] eqn:Hloader; [|done].
  destruct (_make_batch uneven_loader_batch) as [batch|] eqn:Hbatch; [|done].
  assert (Hrange : (1 ≤ seq_len uneven_loader_batch ≤ 100000)%Z)
    by (simpl; lia).
  assert (Hfrom : Forall (λ s, s ∈ loader_samples loader)
                         (samples uneven_loader_batch)).
  { pose proof Hloader as Hl. vm_compute in Hl. injection Hl as <-.
    repeat constructor. }
  destruct (@loader_samples_fit_mask insertion_order uneven_files ["x.txt"]
              ["t.txt"] loader uneven_loader_batch batch Hrange eq_refl
              Hloader Hfrom Hbatch)
    as (t_mask & t_len & _ & Hlen & Hrows).
  exists batch, t_len. split; [done|]. split; [done|].
  by destruct (Hrows 0 (txt "bonne nuit") eq_refl) as [_ ?].
Defined.


(** ** The bucketed schedule, further *)

Section schedule_edges.
Context `{RandomSource}.
Variables (loader : TextLoader) (batch_size : nat) (kw : schedule_kwargs).

Lemma pulls_suspended_length {St} (next : St → rng → outcome St * rng) n :
  ∀ s g batches s' g',
    pulls next n s g = (batches, Suspended s', g') → length batches = n.
Proof.
  induction n as [|n IH]; intros s g batches s' g'; simpl.
  - by intros [= <- _ _].
  - destruct (next s g) as [[batch s1| |e|] g1]; try done.
    destruct (pulls next n s1 g1) as [[batches1 e1] g2] eqn:Hrest.
    intros [= <- -> <-]. simpl. f_equal. by eapply IH.
Qed.

(** A run that is still suspended after [n + m] calls was suspended after
    [n] calls. *)
Lemma pulls_prefix {St} (next : St → rng → outcome St * rng) n m s g
    batches s' g' :
  pulls next (n + m) s g = (batches, Suspended s', g') →
  ∃ s1 g1, pulls next n s g = (take n batches, Suspended s1, g1).
Proof.
  rewrite pulls_add.
  destruct (pulls next n s g) as [[first [s1| |e|]] g1] eqn:Hn; try done.
  destruct (pulls next m s1 g1) as [[more e] g2].
  intros [= <- -> <-].
  apply pulls_suspended_length in Hn as Hlen.
  exists s1, g1. by rewrite take_app_length' by done.
Qed.

(** Two states from which [next] does the same are followed by the same
    batches. *)
Lemma yields_same_next {St} (next : St → rng → outcome St * rng) s1 s2 :
  (∀ g, next s1 g = next s2 g) →
  ∀ n g, yields next n s1 g = yields next n s2 g.
Proof.
  intros Hsame [|n] g; [done|]. by rewrite !yields_S, Hsame.
Qed.

Lemma bs_reshuffle_fixed rows numbers g :
  shuffle kw = false →
  bs_reshuffle kw rows numbers g = (Ok (rows, numbers), g).
Proof. intros Hshuffle. unfold bs_reshuffle. by rewrite Hshuffle. Qed.

(** Without shuffling no call draws from the random state. *)
Lemma bs_next_keeps_rng st g :
  shuffle kw = false → (bs_next loader batch_size kw st g).2 = g.
Proof.
  intros Hshuffle.
  assert (Hhead : ∀ rows n numbers,
            (bs_loop_head batch_size kw rows n numbers g).2 = g).
  { intros rows n numbers. unfold bs_loop_head.
    rewrite bs_reshuffle_fixed by done. by destruct numbers. }
  destruct st as [|rows n numbers [|batch pending]]; simpl.
  - destruct (bs_enter loader batch_size kw) as [[[rows n] numbers]|]; [|done].
    apply Hhead.
  - destruct (repeat kw); [apply Hhead|done].
  - done.
Qed.

(** The value of the statements before the loop. *)
Lemma bs_enter_value :
  loader_samples loader ≠ [] → 0 < batch_size → fuzzyness kw ≠ 0%Z →
  bs_enter loader batch_size kw
  = Ok ((if sort kw then stable_sort_by_key else id)
          (imap (λ i s, (i, length_key (fuzzyness kw) s))
                (loader_samples loader)),
        length (loader_samples loader),
        seq 0 (number_of_batches batch_size (length (loader_samples loader)))).
Proof.
  intros Hne Hsize Hfuzz. unfold bs_enter.
  rewrite make_sample_indices_ok by done. simpl.
  set (rows := imap _ _).
  assert (Hlen : length rows = length (loader_samples loader)).
  { unfold rows. by rewrite length_imap. }
  assert (Hrows : rows ≠ []).
  { intros Hnil. rewrite Hnil in Hlen. by destruct (loader_samples loader). }
  assert (Hnb : ∀ n, get_number_of_batches batch_size n
                     = Ok (seq 0 (number_of_batches batch_size n))).
  { intros n. unfold get_number_of_batches. case_decide; [lia|done]. }
  destruct (sort kw).
  - rewrite sort_rows_ok by done. simpl.
    rewrite (Permutation_length (stable_sort_by_key_Permutation rows)), Hlen.
    by rewrite Hnb.
  - simpl. by rewrite Hlen, Hnb.
Qed.
End schedule_edges.


(** Without shuffling the random source plays no part in a call. *)
Lemma bs_next_same_source (source1 source2 : RandomSource) loader batch_size
    kw st (g1 : @rng source1) (g2 : @rng source2) :
  shuffle kw = false →
  (@bs_next source1 loader batch_size kw st g1).1
  = (@bs_next source2 loader batch_size kw st g2).1.
Proof.
  intros Hshuffle.
  assert (Hhead : ∀ rows n numbers,
            (@bs_loop_head source1 batch_size kw rows n numbers g1).1
            = (@bs_loop_head source2 batch_size kw rows n numbers g2).1).
  { intros rows n numbers. unfold bs_loop_head, bs_reshuffle.
    rewrite Hshuffle. by destruct numbers. }
  destruct st as [|rows n numbers [|batch pending]]; simpl.
  - destruct (bs_enter loader batch_size kw) as [[[rows n] numbers]|]; [|done].
    apply Hhead.
  - destruct (repeat kw); [apply Hhead|done].
  - done.
Qed.

(** X15.  Two failures of the first call of [bucket_schedule] (creating
    the generator runs nothing): with at least one sample and
    [fuzzyness = 0] building the keys divides by zero; with no sample and
    [sort=True] the array of keys has a single axis and selecting its second
    column is an [IndexError].  In both cases the random state is
    untouched. *)
Theorem bucket_schedule_first_call_errors `{RandomSource} loader batch_size
    kw g n :
  (loader_samples loader ≠ [] → fuzzyness kw = 0%Z →
   pulls (gen_next (bucket_schedule loader batch_size kw)) (S n)
         (gen_init (bucket_schedule loader batch_size kw)) g
   = ([], Raised ZeroDivisionError, g))
  ∧ (loader_samples loader = [] → sort kw = true →
     pulls (gen_next (bucket_schedule loader batch_size kw)) (S n)
           (gen_init (bucket_schedule loader batch_size kw)) g
     = ([], Raised IndexError, g)).
Proof.
  split.
  - intros Hne Hfuzz. simpl. unfold bs_enter, make_sample_indices.
    destruct (loader_samples loader); [done|].
    by rewrite Hfuzz, decide_True.
  - intros Hnil Hsort. simpl. unfold bs_enter.
    by rewrite Hnil, Hsort.
Qed.

Lemma bucket_schedule_first_call_errors_witness :
  yields (gen_next (@bucket_schedule identity_source three_samples 2
            {| shuffle := false; repeat := true; fuzzyness := 0;
               sort := false |})) 5 BsEntry () = []
  ∧ pulls (gen_next (@bucket_schedule identity_source (loader_of []) 2
             warmup_kwargs)) 1 BsEntry ()
    = ([], Raised IndexError, ()).
Proof.
  destruct (@bucket_schedule_first_call_errors identity_source three_samples 2
              {| shuffle := false; repeat := true; fuzzyness := 0;
                 sort := false |} () 4) as [Hzero _].
  destruct (@bucket_schedule_first_call_errors identity_source (loader_of []) 2
              warmup_kwargs () 0) as [_ Hempty].
  split.
  - exact (f_equal (λ p, p.1.1) (Hzero ltac:(done) eq_refl)).
  - by apply Hempty.
Defined.

(** X16.  With no sample, [sort=False] and [batch_size >= 1] there is no
    batch number.  With [shuffle=True] the first call raises [IndexError]
    (the sort that follows the shuffle); without shuffling the first call
    ends the generator when [repeat=False], and never returns when
    [repeat=True]: the [while] loop spins around an empty [for] loop. *)
Theorem bucket_schedule_empty_loader `{RandomSource} loader batch_size kw g :
  loader_samples loader = [] → sort kw = false → 0 < batch_size →
  (gen_next (bucket_schedule loader batch_size kw)
            (gen_init (bucket_schedule loader batch_size kw)) g).1
  = if shuffle kw then Throw IndexError
    else if repeat kw then Diverge else Stop.
Proof.
  intros Hnil Hsort Hsize. simpl. unfold bs_enter.
  rewrite Hnil, Hsort. simpl. unfold get_number_of_batches.
  rewrite decide_False by lia. simpl.
  unfold bs_loop_head, bs_reshuffle. simpl.
  rewrite (Nat.div_small (batch_size - 1) batch_size) by lia. simpl.
  destruct (shuffle kw); [|by destruct (repeat kw)].
  unfold np_random_shuffle. simpl.
  destruct (random_permutation g 0) as [positions g1] eqn:Hperm.
  pose proof (random_permutation_perm g 0) as Hp. rewrite Hperm in Hp.
  apply Permutation_nil_r in Hp. simpl in Hp. by subst positions.
Qed.

Lemma bucket_schedule_empty_loader_witness :
  (gen_next (@bucket_schedule identity_source (loader_of []) 4
               {| shuffle := false; repeat := true; fuzzyness := 3;
                  sort := false |}) BsEntry ()).1 = Diverge.
Proof.
  apply (@bucket_schedule_empty_loader identity_source (loader_of []) 4
           {| shuffle := false; repeat := true; fuzzyness := 3;
              sort := false |} ()); [done|done|lia].
Defined.

(** X17.  With [shuffle=False] the schedule never draws from the random
    state: the state is handed back unchanged, and the batches and the way
    the calls end are the same for every random source. *)
Theorem unshuffled_schedule_ignores_random_state
    (source1 source2 : RandomSource) loader batch_size kw n
    (g1 : @rng source1) (g2 : @rng source2) :
  shuffle kw = false →
  (pulls (gen_next (@bucket_schedule source1 loader batch_size kw)) n
         (gen_init (@bucket_schedule source1 loader batch_size kw)) g1).1
  = (pulls (gen_next (@bucket_schedule source2 loader batch_size kw)) n
           (gen_init (@bucket_schedule source2 loader batch_size kw)) g2).1
  ∧ (pulls (gen_next (@bucket_schedule source1 loader batch_size kw)) n
           (gen_init (@bucket_schedule source1 loader batch_size kw)) g1).2
    = g1.
Proof.
  intros Hshuffle. simpl.
  generalize BsEntry as st. revert g1 g2.
  induction n as [|n IH]; intros g1 g2 st; [done|]. simpl.
  pose proof (bs_next_same_source source1 source2 loader batch_size kw st
                g1 g2 Hshuffle) as Hsame.
  pose proof (@bs_next_keeps_rng source1 loader batch_size kw st g1 Hshuffle)
    as Hkeep1.
  pose proof (@bs_next_keeps_rng source2 loader batch_size kw st g2 Hshuffle)
    as Hkeep2.
  destruct (@bs_next source1 loader batch_size kw st g1) as [o1 g1'].
  destruct (@bs_next source2 loader batch_size kw st g2) as [o2 g2'].
  simpl in *. subst o2 g1' g2'.
  destruct o1 as [batch st'| |e|]; try done.
  destruct (IH g1 g2 st') as [Hbatches Hrng].
  destruct (pulls _ n st' g1) as [[batches1 e1] g1'].
  destruct (pulls _ n st' g2) as [[batches2 e2] g2'].
  simpl in *. by simplify_eq.
Qed.

Lemma unshuffled_schedule_ignores_random_state_witness :
  yields (gen_next (@bucket_schedule reversing_source three_samples 2
                      default_kwargs)) 2 BsEntry ()
  = yields (gen_next (@bucket_schedule identity_source three_samples 2
                        default_kwargs)) 2 BsEntry ().
Proof.
  destruct (unshuffled_schedule_ignores_random_state reversing_source
              identity_source three_samples 2 default_kwargs 2 () ())
    as [Hsame _]; [done|].
  exact (f_equal fst Hsame).
Defined.


(** The batches of the first [n] calls are among those of more calls. *)
Lemma yields_prefix `{RandomSource} {St} (next : St → rng → outcome St * rng)
    n m s g :
  yields next n s g `prefix_of` yields next (n + m) s g.
Proof.
  unfold yields. rewrite pulls_add.
  destruct (pulls next n s g) as [[batches [s'| |e|]] g']; simpl; try done.
  destruct (pulls next m s' g') as [[more e] g'']. simpl.
  by apply prefix_app_r.
Qed.

Lemma concat_uniform_length {A} (ls : list (list A)) k :
  Forall (λ l, length l = k) ls → length (concat ls) = length ls * k.
Proof.
  induction 1 as [|l ls Hl _ IH]; [done|].
  simpl. rewrite length_app, IH, Hl. done.
Qed.

(** In an epoch no batch is empty and every index is one of a sample. *)
Lemma epoch_shape_valid loader batch_size kw epoch :
  loader_samples loader ≠ [] → 0 < batch_size →
  epoch_shape loader batch_size kw epoch →
  Forall (λ batch, batch ≠ [] ∧ length batch ≤ batch_size
                   ∧ Forall (λ i, i < length (loader_samples loader)) batch)
         epoch.
Proof.
  intros Hne Hsize (Hlen & Hle & Hshort & _ & Hcover).
  assert (Hsamples : 0 < length (loader_samples loader)).
  { destruct (loader_samples loader); [done|simpl; lia]. }
  apply Forall_lookup. intros i batch Hi. split; [|split].
  - intros ->.
    apply list_elem_of_split_length in Hi as (before & after & -> & ->).
    assert (Hfull : Forall (λ l : list nat, length l = batch_size)
                           (before ++ after)).
    { apply Forall_lookup. intros j l Hj.
      rewrite Forall_lookup in Hle.
      destruct (decide (length l < batch_size)) as [Hlt|].
      - destruct (decide (j < length before)) as [Hjlt|Hjge].
        + rewrite lookup_app_l in Hj by done.
          assert (j = length before); [|lia].
          apply (Hshort j (length before) l []); [|by rewrite list_lookup_middle
                                                  |done|simpl; lia].
          by rewrite lookup_app_l.
        + rewrite lookup_app_r in Hj by lia.
          assert (S j = length before); [|lia].
          apply (Hshort (S j) (length before) l []);
            [|by rewrite list_lookup_middle|done|simpl; lia].
          rewrite lookup_app_r by lia.
          by replace (S j - length before) with (S (j - length before))
            by lia.
      - assert (length l ≤ batch_size); [|lia].
        destruct (decide (j < length before)).
        + apply (Hle j). rewrite lookup_app_l by done.
          by rewrite lookup_app_l in Hj.
        + apply (Hle (S j)). rewrite lookup_app_r by lia.
          rewrite lookup_app_r in Hj by lia.
          by replace (S j - length before) with (S (j - length before))
            by lia. }
    apply Permutation_length in Hcover.
    rewrite concat_app in Hcover. simpl in Hcover.
    rewrite <- concat_app,
      (concat_uniform_length _ _ Hfull), length_seq in Hcover.
    rewrite length_app in Hlen. simpl in Hlen. rewrite length_app in Hcover.
    pose proof (number_of_batches_tight batch_size
                  (length (loader_samples loader)) Hsize Hsamples).
    rewrite <- Hlen in *. nia.
  - rewrite Forall_lookup in Hle. by apply (Hle i).
  - apply Forall_forall. intros index Hindex.
    assert (Hin : index ∈ concat epoch).
    { apply list_elem_of_In, in_concat. exists batch.
      split; apply list_elem_of_In; [by eapply list_elem_of_lookup_2|done]. }
    rewrite Hcover in Hin. apply elem_of_seq in Hin. lia.
Qed.

(** X18.  With at least one sample, [batch_size >= 1], a non-zero fuzzyness
    and [repeat=True] the generator never ends: whatever the number of calls,
    each of them yields a batch. *)
Theorem repeating_schedule_never_ends `{RandomSource} loader batch_size kw
    g n :
  loader_samples loader ≠ [] → 0 < batch_size → fuzzyness kw ≠ 0%Z →
  repeat kw = true →
  ∃ batches st g',
    pulls (gen_next (bucket_schedule loader batch_size kw)) n
          (gen_init (bucket_schedule loader batch_size kw)) g
    = (batches, Suspended st, g')
    ∧ length batches = n.
Proof.
  intros Hne Hsize Hfuzz Hrepeat. simpl.
  destruct (pulls_epochs_entry loader batch_size kw Hne Hsize Hfuzz n g)
    as (epochs & st & g' & Hpulls & _); [by rewrite Hrepeat|].
  set (nb := number_of_batches batch_size (length (loader_samples loader)))
    in *.
  assert (0 < nb).
  { apply number_of_batches_pos; [done|].
    destruct (loader_samples loader); [done|simpl; lia]. }
  replace (n * nb) with (n + (n * nb - n)) in Hpulls by nia.
  apply pulls_prefix in Hpulls as (s1 & g1 & Hpulls).
  eexists _, _, _. split; [exact Hpulls|].
  by eapply pulls_suspended_length.
Qed.

Lemma repeating_schedule_never_ends_witness :
  ∃ batches st g',
    pulls (gen_next (@bucket_schedule reversing_source three_samples 2
             {| shuffle := true; repeat := true; fuzzyness := 3;
                sort := false |})) 7 BsEntry ()
    = (batches, Suspended st, g')
    ∧ length batches = 7.
Proof.
  apply (@repeating_schedule_never_ends reversing_source three_samples 2
           {| shuffle := true; repeat := true; fuzzyness := 3;
              sort := false |} () 7); [done|lia|done|done].
Defined.

(** X19.  With at least one sample, [batch_size >= 1] and a non-zero
    fuzzyness every batch the generator yields, in any epoch and with any
    choice of the keyword arguments, can be used as it is: it is not empty,
    it has at most [batch_size] indices, and each index is that of a sample
    of the loader. *)
Theorem yielded_batches_are_valid `{RandomSource} loader batch_size kw g n :
  loader_samples loader ≠ [] → 0 < batch_size → fuzzyness kw ≠ 0%Z →
  Forall (λ batch, batch ≠ [] ∧ length batch ≤ batch_size
                   ∧ Forall (λ i, is_Some (loader_samples loader !! i)) batch)
         (yields (gen_next (bucket_schedule loader batch_size kw)) n
                 (gen_init (bucket_schedule loader batch_size kw)) g).
Proof.
  intros Hne Hsize Hfuzz. simpl.
  set (nb := number_of_batches batch_size (length (loader_samples loader))).
  assert (Hepochs : ∃ m epochs,
            yields (bs_next loader batch_size kw) (n + m) BsEntry g
            = concat epochs
            ∧ Forall (epoch_shape loader batch_size kw) epochs).
  { destruct (repeat kw) eqn:Hrepeat.
    - destruct (pulls_epochs_entry loader batch_size kw Hne Hsize Hfuzz n g)
        as (epochs & st & g' & Hpulls & _ & _ & Hshapes);
        [by rewrite Hrepeat|].
      fold nb in Hpulls.
      assert (0 < nb).
      { apply number_of_batches_pos; [done|].
        destruct (loader_samples loader); [done|simpl; lia]. }
      exists (n * nb - n), epochs. split; [|done].
      unfold yields. replace (n + (n * nb - n)) with (n * nb) by nia.
      by rewrite Hpulls.
    - destruct (pulls_one_pass loader batch_size kw g n Hne Hsize Hfuzz
                  Hrepeat) as (epoch & g' & Hpulls & Hshape).
      fold nb in Hpulls.
      exists (nb + 1), [epoch]. split; [|by constructor].
      unfold yields. replace (n + (nb + 1)) with (nb + S n) by lia.
      rewrite Hpulls. simpl. by rewrite app_nil_r. }
  destruct Hepochs as (m & epochs & Hyields & Hshapes).
  destruct (yields_prefix (bs_next loader batch_size kw) n m BsEntry g)
    as [more Hmore].
  rewrite Hyields in Hmore.
  assert (Hall : Forall (λ batch, batch ≠ [] ∧ length batch ≤ batch_size
                   ∧ Forall (λ i, i < length (loader_samples loader)) batch)
                        (concat epochs)).
  { apply Forall_concat. eapply Forall_impl; [exact Hshapes|].
    intros epoch Hshape. by eapply epoch_shape_valid. }
  rewrite Hmore in Hall. apply Forall_app in Hall as [Hall _].
  eapply Forall_impl; [exact Hall|].
  intros batch (? & ? & Hindices). split; [done|]. split; [done|].
  eapply Forall_impl; [exact Hindices|].
  intros i Hi. by apply lookup_lt_is_Some.
Qed.

Lemma yielded_batches_are_valid_witness :
  Forall (λ batch, batch ≠ [] ∧ length batch ≤ 2
                   ∧ Forall (λ i, is_Some (loader_samples three_samples !! i))
                            batch)
         (yields (gen_next (@bucket_schedule reversing_source three_samples 2
                              shuffling)) 5 BsEntry ()).
Proof.
  apply (@yielded_batches_are_valid reversing_source three_samples 2 shuffling
           () 5); [done|lia|done].
Defined.


(** The first epoch without shuffling: the slices in the order of their
    batch numbers, of the index array as it was built. *)
Lemma pulls_unshuffled_epoch `{RandomSource} loader batch_size kw g :
  loader_samples loader ≠ [] → 0 < batch_size → fuzzyness kw ≠ 0%Z →
  shuffle kw = false →
  let rows := (if sort kw then stable_sort_by_key else id)
                (imap (λ i s, (i, length_key (fuzzyness kw) s))
                      (loader_samples loader)) in
  let num_samples := length (loader_samples loader) in
  let num_batches := number_of_batches batch_size num_samples in
  pulls (bs_next loader batch_size kw) num_batches BsEntry g
  = (bs_batch batch_size rows num_samples <$> seq 0 num_batches,
     Suspended (BsFor rows num_samples (seq 0 num_batches) []), g).
Proof.
  intros Hne Hsize Hfuzz Hshuffle rows num_samples num_batches.
  assert (Hpos : 0 < num_batches).
  { apply number_of_batches_pos; [done|]. unfold num_samples.
    destruct (loader_samples loader); [done|simpl; lia]. }
  assert (Hnext : bs_next loader batch_size kw BsEntry g
                  = bs_loop_head batch_size kw rows num_samples
                      (seq 0 num_batches) g).
  { simpl. by rewrite bs_enter_value. }
  destruct num_batches as [|k]; [lia|].
  rewrite pulls_S, Hnext. unfold bs_loop_head.
  rewrite bs_reshuffle_fixed by done. simpl.
  rewrite (pulls_for loader batch_size kw Hsize) by by rewrite length_seq.
  rewrite take_ge, drop_ge by by rewrite length_seq. done.
Qed.

(** X20.  With [shuffle=False] and [repeat=True] every epoch is the same:
    after the [num_batches] batches of the first epoch the generator yields
    what it yielded from the start. *)
Theorem unshuffled_epochs_repeat `{RandomSource} loader batch_size kw g n :
  loader_samples loader ≠ [] → 0 < batch_size → fuzzyness kw ≠ 0%Z →
  shuffle kw = false → repeat kw = true →
  let num_batches :=
    number_of_batches batch_size (length (loader_samples loader)) in
  yields (gen_next (bucket_schedule loader batch_size kw)) (num_batches + n)
         (gen_init (bucket_schedule loader batch_size kw)) g
  = yields (gen_next (bucket_schedule loader batch_size kw)) num_batches
           (gen_init (bucket_schedule loader batch_size kw)) g
    ++ yields (gen_next (bucket_schedule loader batch_size kw)) n
              (gen_init (bucket_schedule loader batch_size kw)) g.
Proof.
  intros Hne Hsize Hfuzz Hshuffle Hrepeat num_batches. simpl.
  pose proof (pulls_unshuffled_epoch loader batch_size kw g Hne Hsize Hfuzz
                Hshuffle) as Hepoch.
  simpl in Hepoch. fold num_batches in Hepoch.
  set (rows := (if sort kw then stable_sort_by_key else id) _) in Hepoch.
  assert (Hagain : yields (bs_next loader batch_size kw) n
                     (BsFor rows (length (loader_samples loader))
                            (seq 0 num_batches) []) g
                   = yields (bs_next loader batch_size kw) n BsEntry g).
  { apply yields_same_next. intros g'. simpl.
    by rewrite Hrepeat, bs_enter_value. }
  unfold yields in *. rewrite pulls_add, Hepoch.
  destruct (pulls _ n (BsFor _ _ _ _) g) as [[more e] g'].
  simpl in *. by rewrite Hagain.
Qed.

Lemma unshuffled_epochs_repeat_witness :
  yields (gen_next (@bucket_schedule identity_source three_samples 2
            {| shuffle := false; repeat := true; fuzzyness := 3;
               sort := true |})) 5 BsEntry ()
  = [[0; 1]; [2]] ++ [[0; 1]; [2]; [0; 1]].
Proof.
  apply (@unshuffled_epochs_repeat identity_source three_samples 2
           {| shuffle := false; repeat := true; fuzzyness := 3;
              sort := true |} () 3); [done|lia|done|done|done].
Defined.

(** The stable sort orders the rows by key and, for equal keys, by index,
    when the indices come in increasing order. *)
Lemma insert_by_key_lex row rows :
  Forall (λ r : nat * Z, row.1 < r.1) rows →
  StronglySorted (λ r r' : nat * Z,
                    (r.2 < r'.2)%Z ∨ (r.2 = r'.2 ∧ r.1 < r'.1)) rows →
  StronglySorted (λ r r' : nat * Z,
                    (r.2 < r'.2)%Z ∨ (r.2 = r'.2 ∧ r.1 < r'.1))
                 (insert_by_key row rows).
Proof.
  induction rows as [|row' rows IH]; simpl; intros Hlt Hsorted.
  - by repeat constructor.
  - apply Forall_cons in Hlt as [Hlt' Hlt].
    apply StronglySorted_inv in Hsorted as [Hsorted Hall].
    case_decide as Hle.
    + constructor; [by constructor|].
      constructor; [lia|].
      rewrite Forall_forall in Hall, Hlt. apply Forall_forall.
      intros r Hr. specialize (Hall r Hr). specialize (Hlt r Hr). lia.
    + constructor; [by apply IH|].
      rewrite insert_by_key_Permutation. constructor; [lia|done].
Qed.

Lemma stable_sort_by_key_lex rows :
  StronglySorted lt rows.*1 →
  StronglySorted (λ r r' : nat * Z,
                    (r.2 < r'.2)%Z ∨ (r.2 = r'.2 ∧ r.1 < r'.1))
                 (stable_sort_by_key rows).
Proof.
  induction rows as [|row rows IH]; simpl; intros Hindices.
  - constructor.
  - apply StronglySorted_inv in Hindices as [Hindices Hall].
    apply insert_by_key_lex; [|by apply IH].
    rewrite stable_sort_by_key_Permutation.
    apply Forall_forall. intros r Hr.
    rewrite Forall_forall in Hall. apply Hall.
    by apply (list_elem_of_fmap_2 fst).
Qed.

Lemma seq_StronglySorted start n : StronglySorted lt (seq start n).
Proof.
  revert start. induction n as [|n IH]; intros start; simpl; constructor;
    [done|].
  apply Forall_forall. intros i Hi%elem_of_seq. lia.
Qed.

Lemma sample_indices_fst (samples : list sample) fuzz :
  (imap (λ i s, (i, length_key fuzz s)) samples).*1 = seq 0 (length samples).
Proof.
  rewrite fmap_imap.
  rewrite (imap_ext _ (λ j _, id j) _) by done.
  by rewrite imap_seq_0, list_fmap_id.
Qed.

(** X21.  With [shuffle=False] the order of the indices over the batches
    of an epoch is fixed.  Without [sort] it is [0, 1, ..., num_samples-1].
    With [sort] it is the order of ascending key, samples of equal key
    following each other in the order of the loader. *)
Theorem unshuffled_epoch_order `{RandomSource} loader batch_size kw g :
  loader_samples loader ≠ [] → 0 < batch_size → fuzzyness kw ≠ 0%Z →
  shuffle kw = false →
  let order :=
    concat (yields (gen_next (bucket_schedule loader batch_size kw))
              (number_of_batches batch_size (length (loader_samples loader)))
              (gen_init (bucket_schedule loader batch_size kw)) g) in
  (sort kw = false → order = seq 0 (length (loader_samples loader)))
  ∧ (sort kw = true →
     ∃ rows,
       order = rows.*1
       ∧ rows ≡ₚ imap (λ i s, (i, length_key (fuzzyness kw) s))
                      (loader_samples loader)
       ∧ StronglySorted (λ r r' : nat * Z,
                           (r.2 < r'.2)%Z ∨ (r.2 = r'.2 ∧ r.1 < r'.1)) rows).
Proof.
  intros Hne Hsize Hfuzz Hshuffle. simpl.
  pose proof (pulls_unshuffled_epoch loader batch_size kw g Hne Hsize Hfuzz
                Hshuffle) as Hepoch.
  simpl in Hepoch. unfold yields. rewrite Hepoch. simpl.
  set (keyed := imap _ (loader_samples loader)).
  assert (Hlen : length keyed = length (loader_samples loader)).
  { unfold keyed. by rewrite length_imap. }
  assert (Hall : ∀ rows, length rows = length (loader_samples loader) →
            concat (bs_batch batch_size rows (length (loader_samples loader))
                      <$> seq 0 (number_of_batches batch_size
                                   (length (loader_samples loader))))
            = rows.*1).
  { intros rows Hrows. rewrite <- Hrows.
    rewrite (bs_batches_prefix batch_size Hsize), take_ge; [done|].
    by apply number_of_batches_covers. }
  split; intros Hsort; rewrite Hsort.
  - rewrite Hall by done. apply sample_indices_fst.
  - exists (stable_sort_by_key keyed). split; [|split].
    + apply Hall.
      by rewrite (Permutation_length (stable_sort_by_key_Permutation keyed)).
    + apply stable_sort_by_key_Permutation.
    + apply stable_sort_by_key_lex. unfold keyed.
      rewrite sample_indices_fst. apply seq_StronglySorted.
Qed.

Lemma unshuffled_epoch_order_witness :
  concat (yields (gen_next (@bucket_schedule identity_source ten_samples 4
                              default_kwargs)) 3 BsEntry ())
  = seq 0 10.
Proof.
  destruct (@unshuffled_epoch_order identity_source ten_samples 4
              default_kwargs ()) as [Hplain _]; [done|lia|done|done|].
  by apply Hplain.
Defined.


(** ** The warmup-composed schedule, further *)

(** Without shuffling a run leaves the random state as it found it. *)
Lemma pulls_keeps_rng `{RandomSource} loader batch_size kw n : ∀ st g,
  shuffle kw = false →
  (pulls (bs_next loader batch_size kw) n st g).2 = g.
Proof.
  induction n as [|n IH]; intros st g Hshuffle; [done|].
  rewrite pulls_S.
  pose proof (bs_next_keeps_rng loader batch_size kw st g Hshuffle) as Hkeep.
  destruct (bs_next loader batch_size kw st g) as [[batch st'| |e|] g'];
    simpl in Hkeep; subst g'; try done.
  specialize (IH st' g Hshuffle).
  by destruct (pulls (bs_next loader batch_size kw) n st' g) as [[??]?].
Qed.

Section warmup_edges.
Context `{RandomSource}.
Variables (loader : TextLoader) (batch_size : nat).
Variable warmup_iterations : Z.
Variables warmup_function regular_function : option schedule_function.
Variable kwargs : schedule_kwargs.

Local Abbreviation warm :=
  (ws_warmup_generator loader batch_size warmup_function).
Local Abbreviation regular :=
  (ws_regular_generator loader batch_size regular_function kwargs).
Local Abbreviation composed :=
  (warmup_schedule loader batch_size warmup_iterations warmup_function
                   regular_function kwargs).
Local Abbreviation Warmup :=
  (WsWarmup loader batch_size warmup_function regular_function kwargs).

(** The first loop while its counter stays away from [warmup_iterations]:
    the composed generator does what the warmup generator does, and starts
    the regular generator when that one is exhausted. *)
Lemma pulls_first_loop n : ∀ i s g batches e g1,
  pulls (gen_next warm) n s g = (batches, e, g1) →
  (warmup_iterations < Z.of_nat i
   ∨ Z.of_nat i + Z.of_nat (length batches) ≤ warmup_iterations)%Z →
  match e with
  | Suspended s' =>
      pulls (gen_next composed) n (Warmup i s) g
      = (batches, Suspended (Warmup (i + n) s'), g1)
  | Exhausted =>
      ∀ m, yields (gen_next composed) (length batches + m) (Warmup i s) g
           = batches ++ yields (gen_next regular) m (gen_init regular) g1
  | Raised x =>
      pulls (gen_next composed) (S (length batches)) (Warmup i s) g
      = (batches, Raised x, g1)
  | Diverged =>
      pulls (gen_next composed) (S (length batches)) (Warmup i s) g
      = (batches, Diverged, g1)
  end.
Proof.
  induction n as [|n IH]; intros i s g batches e g1 Hpulls Hcounter.
  - simpl in Hpulls. simplify_eq. simpl. by rewrite Nat.add_0_r.
  - rewrite pulls_S in Hpulls.
    destruct (gen_next warm s g) as [[batch s'| |x|] g'] eqn:Hnext.
    + destruct (pulls (gen_next warm) n s' g') as [[batches' e'] g1']
        eqn:Hrest.
      simplify_eq. simpl in Hcounter.
      specialize (IH (S i) s' g' batches' e g1 Hrest).
      assert (Hstep : gen_next composed (Warmup i s) g
                      = (Yield batch (Warmup (S i) s'), g')).
      { simpl. rewrite Hnext. rewrite decide_False by lia. done. }
      destruct e as [s''| |x|].
      * rewrite pulls_S. rewrite Hstep. rewrite IH by lia.
        by replace (S i + n) with (i + S n) by lia.
      * intros m.
        change (length (batch :: batches') + m)
          with (S (length batches' + m)).
        rewrite yields_S. rewrite Hstep. rewrite <- app_comm_cons. f_equal.
        apply IH. lia.
      * change (length (batch :: batches')) with (S (length batches')).
        rewrite pulls_S. rewrite Hstep. rewrite IH by lia. done.
      * change (length (batch :: batches')) with (S (length batches')).
        rewrite pulls_S. rewrite Hstep. rewrite IH by lia. done.
    + simplify_eq. intros m. simpl. apply yields_handover.
      simpl. by rewrite Hnext.
    + simplify_eq. simpl. by rewrite Hnext.
    + simplify_eq. simpl. by rewrite Hnext.
Qed.
End warmup_edges.

(** X22.  A negative [warmup_iterations] does not skip the warmup: the
    counter never equals it, so the composed schedule yields every batch of
    the warmup generator, and the batches of the regular generator once the
    warmup generator is exhausted.  A warmup generator that does not end is
    then never left. *)
Theorem negative_warmup_runs_whole_warmup `{RandomSource} loader batch_size
    warmup_iterations (warmup_function regular_function : option schedule_function)
    kwargs g n batches e g1 :
  (warmup_iterations < 0)%Z →
  let warm :=
    default bucket_schedule warmup_function loader batch_size
      {| shuffle := false; repeat := false; fuzzyness := 1; sort := true |} in
  let regular :=
    default bucket_schedule regular_function loader batch_size kwargs in
  let composed :=
    warmup_schedule loader batch_size warmup_iterations warmup_function
                    regular_function kwargs in
  pulls (gen_next warm) n (gen_init warm) g = (batches, e, g1) →
  (e = Exhausted →
   ∀ m, yields (gen_next composed) (length batches + m) (gen_init composed) g
        = batches ++ yields (gen_next regular) m (gen_init regular) g1)
  ∧ ((∃ s, e = Suspended s) →
     yields (gen_next composed) n (gen_init composed) g = batches).
Proof.
  intros Hnegative warm regular composed Hpulls.
  pose proof (pulls_first_loop loader batch_size warmup_iterations
                warmup_function regular_function kwargs n 0 (gen_init warm)
                g batches e g1 Hpulls) as Hloop.
  split.
  - intros ->. apply Hloop. lia.
  - intros [s ->].
    assert (Hcounter : (warmup_iterations < Z.of_nat 0
                        ∨ Z.of_nat 0 + Z.of_nat (length batches)
                          ≤ warmup_iterations)%Z) by lia.
    exact (f_equal (λ p, p.1.1) (Hloop Hcounter)).
Qed.

Lemma negative_warmup_runs_whole_warmup_witness :
  yields (gen_next (@warmup_schedule identity_source ten_samples 5 (-1)
                      None None default_kwargs))
         3 (gen_init (@warmup_schedule identity_source ten_samples 5 (-1)
                        None None default_kwargs)) ()
  = [[9; 8; 7; 6; 5]; [4; 3; 2; 1; 0]; [0; 1; 2; 3; 4]].
Proof.
  destruct (@negative_warmup_runs_whole_warmup identity_source ten_samples 5
              (-1) None None default_kwargs () 3
              [[9; 8; 7; 6; 5]; [4; 3; 2; 1; 0]] Exhausted ())
    as [Hexhausted _]; [lia|reflexivity|].
  exact (Hexhausted eq_refl 1).
Defined.

(** X23.  An exception of the warmup generator ends the composed schedule:
    it yields the batches that came before, as long as the counter has not
    reached [warmup_iterations], and then raises the same exception; the
    regular generator is never started.  With the default warmup function
    and a loader without samples this is the [IndexError] of the sort, at
    the first call and whatever the regular function is. *)
Theorem warmup_errors_propagate `{RandomSource} loader batch_size
    warmup_iterations (warmup_function regular_function : option schedule_function)
    kwargs g :
  let warm :=
    default bucket_schedule warmup_function loader batch_size
      {| shuffle := false; repeat := false; fuzzyness := 1; sort := true |} in
  let composed :=
    warmup_schedule loader batch_size warmup_iterations warmup_function
                    regular_function kwargs in
  (∀ n batches x g1,
     pulls (gen_next warm) n (gen_init warm) g = (batches, Raised x, g1) →
     (warmup_iterations < 0
      ∨ Z.of_nat (length batches) ≤ warmup_iterations)%Z →
     pulls (gen_next composed) (S (length batches)) (gen_init composed) g
     = (batches, Raised x, g1))
  ∧ (warmup_function = None → loader_samples loader = [] →
     pulls (gen_next composed) 1 (gen_init composed) g
     = ([], Raised IndexError, g)).
Proof.
  intros warm composed.
  assert (Hgeneral : ∀ n batches x g1,
     pulls (gen_next warm) n (gen_init warm) g = (batches, Raised x, g1) →
     (warmup_iterations < 0
      ∨ Z.of_nat (length batches) ≤ warmup_iterations)%Z →
     pulls (gen_next composed) (S (length batches)) (gen_init composed) g
     = (batches, Raised x, g1)).
  { intros n batches x g1 Hpulls Hcounter.
    apply (pulls_first_loop loader batch_size warmup_iterations
             warmup_function regular_function kwargs n 0 (gen_init warm)
             g batches (Raised x) g1 Hpulls). lia. }
  split; [done|].
  intros Hdefault Hnil.
  apply (Hgeneral 1 [] IndexError g); [|simpl; lia].
  unfold warm. rewrite Hdefault. simpl. unfold bs_enter.
  by rewrite Hnil.
Qed.

Lemma warmup_errors_propagate_witness :
  pulls (gen_next (@warmup_schedule identity_source (loader_of []) 5 2
                     None None default_kwargs))
        1 (gen_init (@warmup_schedule identity_source (loader_of []) 5 2
                       None None default_kwargs)) ()
  = ([], Raised IndexError, ()).
Proof.
  destruct (@warmup_errors_propagate identity_source (loader_of []) 5 2
              None None default_kwargs ()) as [_ Hempty].
  by apply Hempty.
Defined.


(** The default warmup generator: one epoch over the stably sorted index
    array, the random state being left alone. *)
Lemma pulls_default_warmup `{RandomSource} loader batch_size g :
  loader_samples loader ≠ [] → 0 < batch_size →
  let num_samples := length (loader_samples loader) in
  let num_batches := number_of_batches batch_size num_samples in
  let sorted :=
    stable_sort_by_key
      (imap (λ i s, (i, length_key 1 s)) (loader_samples loader)) in
  let warmup_batches :=
    bs_batch batch_size sorted num_samples <$> seq 0 num_batches in
  (∀ n, n ≤ num_batches →
        ∃ st, pulls (bs_next loader batch_size warmup_kwargs) n BsEntry g
              = (take n warmup_batches, Suspended st, g))
  ∧ (∀ extra,
       pulls (bs_next loader batch_size warmup_kwargs)
             (num_batches + S extra) BsEntry g
       = (warmup_batches, Exhausted, g)).
Proof.
  intros Hne Hsize num_samples num_batches sorted warmup_batches.
  pose proof (pulls_unshuffled_epoch loader batch_size warmup_kwargs g
                Hne Hsize) as Hepoch.
  simpl in Hepoch. specialize (Hepoch ltac:(done) eq_refl).
  fold num_samples num_batches sorted warmup_batches in Hepoch.
  split.
  - intros n Hn.
    replace num_batches with (n + (num_batches - n)) in Hepoch at 1 by lia.
    apply pulls_prefix in Hepoch as (st & g1 & Hpulls).
    pose proof (pulls_keeps_rng loader batch_size warmup_kwargs n BsEntry g
                  eq_refl) as Hkeep.
    rewrite Hpulls in Hkeep. simpl in Hkeep. subst g1. by exists st.
  - intros extra. rewrite pulls_add, Hepoch. simpl. by rewrite app_nil_r.
Qed.

(** X24.  With the default warmup function, at least one sample and
    [batch_size >= 1], the warmup phase is fixed: its batches are the
    leading slices of the indices sorted stably by
    [(len(x) << 14) + len(t)], as many as [warmup_iterations] allows (all of
    them when it is negative or at least their number).  The phase draws no
    random number: the regular generator starts from the random state the
    composed schedule was started with. *)
Theorem default_warmup_is_sorted `{RandomSource} loader batch_size
    warmup_iterations (regular_function : option schedule_function) kwargs
    g m :
  loader_samples loader ≠ [] → 0 < batch_size →
  let num_samples := length (loader_samples loader) in
  let num_batches := number_of_batches batch_size num_samples in
  let sorted :=
    stable_sort_by_key
      (imap (λ i s, (i, length_key 1 s)) (loader_samples loader)) in
  let warmup_batches :=
    bs_batch batch_size sorted num_samples <$> seq 0 num_batches in
  let count :=
    if decide (warmup_iterations < 0)%Z then num_batches
    else Nat.min (Z.to_nat warmup_iterations) num_batches in
  let regular :=
    default bucket_schedule regular_function loader batch_size kwargs in
  let composed :=
    warmup_schedule loader batch_size warmup_iterations None
                    regular_function kwargs in
  yields (gen_next composed) (count + m) (gen_init composed) g
  = take count warmup_batches
    ++ yields (gen_next regular) m (gen_init regular) g.
Proof.
  intros Hne Hsize num_samples num_batches sorted warmup_batches count
    regular composed.
  destruct (pulls_default_warmup loader batch_size g Hne Hsize)
    as [Hpart Hfull].
  fold num_samples num_batches sorted warmup_batches in Hpart, Hfull.
  assert (Hlen : length warmup_batches = num_batches).
  { unfold warmup_batches. by rewrite length_fmap, length_seq. }
  unfold count. case_decide as Hnegative.
  - pose proof (pulls_first_loop loader batch_size warmup_iterations None
                  regular_function kwargs (num_batches + 1) 0 BsEntry g
                  warmup_batches Exhausted g (Hfull 0)) as Hloop.
    simpl in Hloop. rewrite take_ge by lia. rewrite <- Hlen at 1.
    apply Hloop. lia.
  - set (w := Z.to_nat warmup_iterations).
    assert (Hw : (Z.of_nat 0 + Z.of_nat w - warmup_iterations = 0)%Z)
      by lia.
    destruct (decide (w < num_batches)) as [Hlt|Hge].
    + destruct (Hpart (S w)) as [st Hpulls]; [lia|].
      pose proof (yields_warmup loader batch_size warmup_iterations None
                    regular_function kwargs w 0 BsEntry g
                    (take (S w) warmup_batches) (Suspended st) g Hw Hpulls)
        as Hyields.
      rewrite take_take, Nat.min_l in Hyields by lia.
      rewrite length_take, Hlen in Hyields.
      rewrite Nat.min_l by lia.
      rewrite Nat.min_l in Hyields by lia.
      apply Hyields. right. by exists st.
    + specialize (Hfull (w - num_batches)).
      replace (num_batches + S (w - num_batches)) with (S w) in Hfull by lia.
      pose proof (yields_warmup loader batch_size warmup_iterations None
                    regular_function kwargs w 0 BsEntry g
                    warmup_batches Exhausted g Hw Hfull) as Hyields.
      rewrite (take_ge warmup_batches w) in Hyields by lia.
      rewrite Hlen in Hyields.
      rewrite Nat.min_r by lia. rewrite take_ge by lia.
      apply Hyields. by left.
Qed.

Lemma default_warmup_is_sorted_witness :
  yields (gen_next (@warmup_schedule reversing_source ten_samples 4 1
                      None None shuffling))
         1 (gen_init (@warmup_schedule reversing_source ten_samples 4 1
                        None None shuffling)) ()
  = [[9; 8; 7; 6]].
Proof.
  apply (@default_warmup_is_sorted reversing_source ten_samples 4 1 None
           shuffling () 0); [done|lia].
Defined.


(** ** Dictionaries for printing *)

Lemma dict_to_char_Found {K V} `{Countable K} (d : gmap K V) keys chars :
  dict_to_char d keys = Found chars
  ↔ Forall2 (λ k c, d !! k = Some c) keys chars.
Proof.
  revert chars. induction keys as [|k keys IH]; intros chars; simpl.
  - split; [by intros [= <-]; constructor|by intros ->%Forall2_nil_inv_l].
  - destruct (d !! k) as [c|] eqn:Hk.
    + destruct (dict_to_char d keys) as [chars'|key].
      * split.
        -- intros [= <-]. constructor; [done|]. by apply IH.
        -- intros (c' & chars'' & Hc & Hrest & ->)%Forall2_cons_inv_l.
           apply IH in Hrest. by simplify_eq.
      * split; [done|].
        intros (c' & chars'' & Hc & Hrest%IH & ->)%Forall2_cons_inv_l. done.
    + split; [done|].
      intros (c' & chars'' & Hc & _)%Forall2_cons_inv_l. congruence.
Qed.

(** X26.  [dict_to_char] returns the list of the entries of the given
    keys, in order, exactly when every key is in the dict; otherwise it
    raises the [KeyError] of the first key that is missing. *)
Theorem dict_to_char_lookups {K V} `{Countable K} (d : gmap K V)
    (keys : list K) :
  (∀ chars, dict_to_char d keys = Found chars
            ↔ Forall2 (λ k c, d !! k = Some c) keys chars)
  ∧ (∀ key, dict_to_char d keys = KeyError key
            ↔ ∃ before after,
                keys = before ++ key :: after
                ∧ Forall (λ k, is_Some (d !! k)) before
                ∧ d !! key = None).
Proof.
  split; [apply dict_to_char_Found|].
  induction keys as [|k keys IH]; intros key; simpl.
  - split; [done|]. intros (before & after & Hkeys & _).
    by destruct before.
  - destruct (d !! k) as [c|] eqn:Hk.
    + destruct (dict_to_char d keys) as [chars'|key'].
      * split; [done|].
        intros (before & after & Hkeys & Hbefore & Hkey).
        destruct before as [|k' before]; simplify_eq/=; try congruence.
        apply Forall_cons in Hbefore as [_ Hbefore].
        assert (Hno : @Found K (list V) chars' = KeyError key); [|done].
        apply IH. by exists before, after.
      * split.
        -- intros [= ->].
           destruct (proj1 (IH key) eq_refl)
             as (before & after & -> & Hbefore & Hkey).
           exists (k :: before), after. split; [done|].
           split; [|done]. constructor; [by rewrite Hk|done].
        -- intros (before & after & Hkeys & Hbefore & Hkey).
           destruct before as [|k' before]; simplify_eq/=;
             try congruence.
           apply Forall_cons in Hbefore as [_ Hbefore].
           apply IH. by exists before, after.
    + split.
      * intros [= <-]. by exists [], keys.
      * intros (before & after & Hkeys & Hbefore & Hkey).
        destruct before as [|k' before]; simplify_eq/=; try done.
        apply Forall_cons in Hbefore as [[? Hsome] _]. congruence.
Qed.

Lemma dict_to_char_lookups_witness :
  dict_to_char abc_dict [2; 0; 1] = Found ["c"; "a"; "b"]
  ∧ dict_to_char abc_dict [1; 7; 9] = KeyError 7.
Proof.
  destruct (dict_to_char_lookups abc_dict [2; 0; 1]) as [Hfound _].
  destruct (dict_to_char_lookups abc_dict [1; 7; 9]) as [_ Hmissing].
  split.
  - apply Hfound. by repeat constructor.
  - apply Hmissing. exists [1], [9]. by repeat constructor.
Defined.
